(** * Eating: the recommendation fetcher of [services/geminiService.ts]

    The service asks a generative model for nearby restaurants, reads the
    free text it answers line by line, and links every parsed line to a map
    URI.  This development embeds the transformation of one service response
    into restaurant records and checks the properties the specification
    states about it. *)

From Stdlib Require Import Ascii String.
From Stdlib Require Import ZArith List Bool Lia Wf_nat DecimalZ.
Import ListNotations.
Local Open Scope Z_scope.

(** ** JavaScript strings

    A JavaScript string is a sequence of UTF-16 code units.  The built-in
    methods the service calls are written out on that representation, each after
    its ECMAScript definition. *)

Module JS.

Definition jsstring : Type := list Z.

(** A literal of the source whose characters are all ASCII. *)
Definition lit (s : string) : jsstring :=
  map (fun a => Z.of_N (N_of_ascii a)) (list_ascii_of_string s).

(** [ToBoolean] of a string: only the empty string is falsy. *)
Definition truthy (s : jsstring) : bool :=
  match s with
  | [] => false
  | _ :: _ => true
  end.

(** [x || d] where [x] is a string or [undefined]. *)
Definition orElse (x : option jsstring) (d : jsstring) : jsstring :=
  match x with
  | Some (c :: r) => c :: r
  | Some [] => d
  | None => d
  end.

(** [s.split(sep)] for a separator of one code unit: the result always has
    at least one piece, and a trailing separator leaves a trailing empty
    piece. *)
Fixpoint split (sep : Z) (s : jsstring) : list jsstring :=
  match s with
  | [] => [[]]
  | c :: r =>
      if c =? sep then [] :: split sep r
      else match split sep r with
           | p :: ps => (c :: p) :: ps
           | [] => [[c]]
           end
  end.

Fixpoint startsWith (s sub : jsstring) {struct sub} : bool :=
  match sub, s with
  | [], _ => true
  | _ :: _, [] => false
  | a :: sub', b :: s' => (a =? b) && startsWith s' sub'
  end.

(** [s.includes(sub)]. *)
Fixpoint includes (s sub : jsstring) : bool :=
  startsWith s sub ||
  match s with
  | [] => false
  | _ :: r => includes r sub
  end.

(** The code units ECMAScript calls WhiteSpace or LineTerminator; they are
    what [trim] removes and what [\s] matches. *)
Definition isWhiteSpace (c : Z) : bool :=
  (c =? 0x09) || (c =? 0x0A) || (c =? 0x0B) || (c =? 0x0C) || (c =? 0x0D) ||
  (c =? 0x20) || (c =? 0xA0) || (c =? 0x1680) ||
  ((0x2000 <=? c) && (c <=? 0x200A)) ||
  (c =? 0x2028) || (c =? 0x2029) || (c =? 0x202F) || (c =? 0x205F) ||
  (c =? 0x3000) || (c =? 0xFEFF).

(** [\d]: the ten ASCII digits. *)
Definition isDigit (c : Z) : bool := (0x30 <=? c) && (c <=? 0x39).

Fixpoint skipWhile (p : Z -> bool) (s : jsstring) : jsstring :=
  match s with
  | [] => []
  | c :: r => if p c then skipWhile p r else s
  end.

Definition trimStart (s : jsstring) : jsstring := skipWhile isWhiteSpace s.

Fixpoint trimEnd (s : jsstring) : jsstring :=
  match s with
  | [] => []
  | c :: r =>
      match trimEnd r with
      | [] => if isWhiteSpace c then [] else [c]
      | t => c :: t
      end
  end.

(** [s.trim()]. *)
Definition trim (s : jsstring) : jsstring := trimStart (trimEnd s).

(** [s.replace(/^\d+\.\s*/, '')]: the pattern is anchored and not global, so
    it can only match at the start; [\d+] and [\s*] are greedy and no
    backtracking changes what they take, a digit never being a dot. *)
Definition stripOrdinal (s : jsstring) : jsstring :=
  match s with
  | d :: _ =>
      if isDigit d then
        match skipWhile isDigit s with
        | dot :: r => if dot =? 0x2E then skipWhile isWhiteSpace r else s
        | [] => s
        end
      else s
  | [] => s
  end.

(** [s.replace(/\*/g, '')]. *)
Definition stripAsterisks (s : jsstring) : jsstring :=
  filter (fun c => negb (c =? 0x2A)) s.

(** *** Exceptions *)

Inductive exn : Type :=
| URIError
| Rejected (reason : jsstring).

Inductive result (A : Type) : Type :=
| Ok (a : A)
| Throw (e : exn).
Arguments Ok {A} a.
Arguments Throw {A} e.

Definition bind {A B : Type} (m : result A) (k : A -> result B) : result B :=
  match m with
  | Ok a => k a
  | Throw e => Throw e
  end.

Definition fmap {A B : Type} (f : A -> B) (m : result A) : result B :=
  bind m (fun a => Ok (f a)).

(** *** encodeURIComponent *)

Definition isHighSurrogate (c : Z) : bool := (0xD800 <=? c) && (c <=? 0xDBFF).
Definition isLowSurrogate (c : Z) : bool := (0xDC00 <=? c) && (c <=? 0xDFFF).

(** The characters [encodeURIComponent] leaves as they are: ASCII letters
    and digits and [- _ . ! ~ * ' ( )]. *)
Definition isUnescaped (c : Z) : bool :=
  ((0x41 <=? c) && (c <=? 0x5A)) || ((0x61 <=? c) && (c <=? 0x7A)) ||
  ((0x30 <=? c) && (c <=? 0x39)) ||
  (c =? 0x2D) || (c =? 0x5F) || (c =? 0x2E) || (c =? 0x21) || (c =? 0x7E) ||
  (c =? 0x2A) || (c =? 0x27) || (c =? 0x28) || (c =? 0x29).

Definition codePoint (hi lo : Z) : Z :=
  (hi - 0xD800) * 0x400 + (lo - 0xDC00) + 0x10000.

Definition utf8 (cp : Z) : list Z :=
  if cp <? 0x80 then [cp]
  else if cp <? 0x800 then
    [Z.lor 0xC0 (Z.shiftr cp 6); Z.lor 0x80 (Z.land cp 0x3F)]
  else if cp <? 0x10000 then
    [Z.lor 0xE0 (Z.shiftr cp 12); Z.lor 0x80 (Z.land (Z.shiftr cp 6) 0x3F);
     Z.lor 0x80 (Z.land cp 0x3F)]
  else
    [Z.lor 0xF0 (Z.shiftr cp 18); Z.lor 0x80 (Z.land (Z.shiftr cp 12) 0x3F);
     Z.lor 0x80 (Z.land (Z.shiftr cp 6) 0x3F); Z.lor 0x80 (Z.land cp 0x3F)].

Definition hexDigit (n : Z) : Z := if n <? 10 then 0x30 + n else 0x41 + (n - 10).

Definition percent (octet : Z) : jsstring :=
  [0x25; hexDigit (Z.shiftr octet 4); hexDigit (Z.land octet 0xF)].

Definition escape (cp : Z) : jsstring := flat_map percent (utf8 cp).

(** [encodeURIComponent(s)]: a surrogate code unit that is not half of a
    pair raises URIError. *)
Fixpoint encodeURIComponent (s : jsstring) : result jsstring :=
  match s with
  | [] => Ok []
  | c :: r =>
      if isUnescaped c then fmap (cons c) (encodeURIComponent r)
      else if isHighSurrogate c then
        match r with
        | d :: r' =>
            if isLowSurrogate d
            then fmap (app (escape (codePoint c d))) (encodeURIComponent r')
            else Throw URIError
        | [] => Throw URIError
        end
      else if isLowSurrogate c then Throw URIError
      else fmap (app (escape c)) (encodeURIComponent r)
  end.

(** A code unit that is not a surrogate. *)
Definition plain (c : Z) : Prop :=
  isHighSurrogate c = false /\ isLowSurrogate c = false.

(** [s.isWellFormed()]: every surrogate code unit is half of a pair. *)
Fixpoint wellFormed (s : jsstring) : bool :=
  match s with
  | [] => true
  | c :: r =>
      if isHighSurrogate c then
        match r with
        | d :: r' => isLowSurrogate d && wellFormed r'
        | [] => false
        end
      else negb (isLowSurrogate c) && wellFormed r
  end.

(** The same, as the way a well-formed string is built up. *)
Inductive WellFormed : jsstring -> Prop :=
| wf_empty : WellFormed []
| wf_unit (c : Z) (r : jsstring) :
    isHighSurrogate c = false -> isLowSurrogate c = false ->
    WellFormed r -> WellFormed (c :: r)
| wf_pair (hi lo : Z) (r : jsstring) :
    isHighSurrogate hi = true -> isLowSurrogate lo = true ->
    WellFormed r -> WellFormed (hi :: lo :: r).

(** *** Numbers as text *)

Fixpoint digits (u : Decimal.uint) : jsstring :=
  match u with
  | Decimal.Nil => []
  | Decimal.D0 u' => 0x30 :: digits u'
  | Decimal.D1 u' => 0x31 :: digits u'
  | Decimal.D2 u' => 0x32 :: digits u'
  | Decimal.D3 u' => 0x33 :: digits u'
  | Decimal.D4 u' => 0x34 :: digits u'
  | Decimal.D5 u' => 0x35 :: digits u'
  | Decimal.D6 u' => 0x36 :: digits u'
  | Decimal.D7 u' => 0x37 :: digits u'
  | Decimal.D8 u' => 0x38 :: digits u'
  | Decimal.D9 u' => 0x39 :: digits u'
  end.

(** [String(n)] for an integer [n] (an array index, a millisecond count). *)
Definition ofInteger (n : Z) : jsstring :=
  match Z.to_int n with
  | Decimal.Pos u => digits u
  | Decimal.Neg u => 0x2D :: digits u
  end.

End JS.
Import JS.

(** ** The service's data *)

(** Modelled from the spec: the client library that declares the grounding
    chunks is not among the sources.  A chunk has a web source and a maps
    source, each optional and each with an optional URI and title, which is
    how the code reads them ([c.web?.title], [matchedChunk.maps?.uri]). *)
Record GroundingSource : Type := {
  uri : option jsstring;
  title : option jsstring
}.

Record GroundingChunk : Type := {
  web : option GroundingSource;
  maps : option GroundingSource
}.

Record GroundingMetadata : Type := {
  groundingChunks : option (list GroundingChunk)
}.

Record Candidate : Type := {
  groundingMetadata : option GroundingMetadata
}.

Record GenerateContentResponse : Type := {
  text : option jsstring;
  candidates : option (list Candidate)
}.

(** Modelled from the spec: [types.ts], which declares [GeoLocation], is not
    among the sources; it holds a latitude and a longitude, which the code
    reads as [lat] and [lng].  They are JavaScript numbers that the code only
    ever turns into text, in the prompt and in the search link; the model
    keeps each as the text that conversion gives, which is ASCII. *)
Record GeoLocation : Type := {
  lat : string;
  lng : string
}.

(** Modelled from the spec: [types.ts], which declares [Restaurant], is not
    among the sources; the record has the seven string fields of the object
    literal that the callback of [map] returns. *)
Record Restaurant : Type := {
  id : jsstring;
  name : jsstring;
  cuisine : jsstring;
  priceLevel : jsstring;
  rating : jsstring;
  description : jsstring;
  mapUri : jsstring
}.

(** What awaiting [ai.models.generateContent] gives.  The prompt built from
    the category, the price and the distance only decides which outcome the
    service has, so the outcome is an input of the model. *)
Inductive Awaited : Type :=
| Resolves (response : GenerateContentResponse)
| Rejects (error : exn).

(** A line written by [console.error]. *)
Inductive LogEntry : Type :=
| ConsoleError (label : jsstring) (error : exn).

(** The placeholders of the fallback parsing; those written in Chinese are
    given by their code units. *)
Definition unknownRestaurant : jsstring := [0x672A; 0x77E5; 0x9910; 0x5EF3].
Definition defaultCuisine : jsstring := [0x7F8E; 0x98DF].
Definition defaultPrice : jsstring := lit "$".
Definition defaultRating : jsstring := lit "N/A".
Definition defaultDescription : jsstring :=
  [0x66AB; 0x7121; 0x63CF; 0x8FF0; 0x3002].

Definition searchLink : jsstring :=
  lit "https://www.google.com/maps/search/?api=1&query=".

Definition pipe : Z := 0x7C.
Definition newline : Z := 0x0A.

(** ** fetchRecommendations *)

(** [text.split('\n').filter(line => line.includes('|'))] *)
Definition linesOf (text : jsstring) : list jsstring :=
  filter (fun line => includes line [pipe]) (split newline text).

(** [line.split('|').map(s => s.trim())] *)
Definition partsOf (line : jsstring) : list jsstring :=
  map trim (split pipe line).

(** [parts[0]?.replace(/^\d+\.\s*/, '').replace(/\*/g, '') || unknown],
    and [parts[k] || placeholder] for the four fields after the name. *)
Definition nameOf (parts : list jsstring) : jsstring :=
  orElse
    (option_map (fun p => stripAsterisks (stripOrdinal p)) (nth_error parts 0))
    unknownRestaurant.

Definition cuisineOf (parts : list jsstring) : jsstring :=
  orElse (nth_error parts 1) defaultCuisine.

Definition priceLevelOf (parts : list jsstring) : jsstring :=
  orElse (nth_error parts 2) defaultPrice.

Definition ratingOf (parts : list jsstring) : jsstring :=
  orElse (nth_error parts 3) defaultRating.

Definition descriptionOf (parts : list jsstring) : jsstring :=
  orElse (nth_error parts 4) defaultDescription.

(** [src?.uri] and the test [if (src?.uri)]. *)
Definition uriOf (src : option GroundingSource) : option jsstring :=
  match src with
  | Some s => uri s
  | None => None
  end.

Definition usable (u : option jsstring) : bool :=
  match u with
  | Some s => truthy s
  | None => false
  end.

(** The first assignments to [mapUri]: the maps URI when there is one, else
    the web URI, else the empty string it was declared with. *)
Definition groundedUri (matchedChunk : option GroundingChunk) : jsstring :=
  match matchedChunk with
  | Some c =>
      if usable (uriOf (maps c)) then orElse (uriOf (maps c)) []
      else if usable (uriOf (web c)) then orElse (uriOf (web c)) []
      else []
  | None => []
  end.

(** The text [encodeURIComponent] is given for the search link. *)
Definition searchQuery (location : GeoLocation) (name : jsstring) : jsstring :=
  name ++ lit " " ++ lit (lat location) ++ lit "," ++ lit (lng location).

(** [lines.slice(0, 5).map((line, index) => ...)], whose callback may throw. *)
Fixpoint mapIndexed {A B : Type} (f : A -> nat -> result B) (index : nat)
    (l : list A) : result (list B) :=
  match l with
  | [] => Ok []
  | a :: r =>
      bind (f a index) (fun b => fmap (cons b) (mapIndexed f (S index) r))
  end.

(** [response.text || ""] *)
Definition textOf (response : GenerateContentResponse) : jsstring :=
  orElse (text response) [].

(** [response.candidates?.[0]?.groundingMetadata?.groundingChunks || []] *)
Definition chunksOf (response : GenerateContentResponse)
    : list GroundingChunk :=
  match candidates response with
  | Some (candidate :: _) =>
      match groundingMetadata candidate with
      | Some metadata =>
          match groundingChunks metadata with
          | Some chunks => chunks
          | None => []
          end
      | None => []
      end
  | Some [] => []
  | None => []
  end.

Section Fetch.

(** [String.prototype.toLowerCase], whose Unicode case table is not part of
    the repository. *)
Variable toLowerCase : jsstring -> jsstring.

(** [now k] is what the call of [Date.now()] made for the record of index
    [k] returns. *)
Variable now : nat -> Z.

Variable location : GeoLocation.

(** [src?.title?.toLowerCase().includes(name.toLowerCase())]; [undefined]
    counts as false. *)
Definition titleIncludes (src : option GroundingSource) (name : jsstring)
    : bool :=
  match src with
  | Some s =>
      match title s with
      | Some t => includes (toLowerCase t) (toLowerCase name)
      | None => false
      end
  | None => false
  end.

(** The predicate given to [chunks.find]. *)
Definition mentions (name : jsstring) (c : GroundingChunk) : bool :=
  titleIncludes (web c) name || titleIncludes (maps c) name.

Definition matchedChunk (chunks : list GroundingChunk) (name : jsstring)
    : option GroundingChunk :=
  find (mentions name) chunks.

(** The value of [mapUri] in the record: what grounding gave or, when that
    is empty, the search link. *)
Definition mapUriOf (chunks : list GroundingChunk) (name : jsstring)
    : result jsstring :=
  let mapUri := groundedUri (matchedChunk chunks name) in
  if truthy mapUri then Ok mapUri
  else fmap (app searchLink) (encodeURIComponent (searchQuery location name)).

(** The callback of [map]. *)
Definition restaurantOf (chunks : list GroundingChunk) (line : jsstring)
    (index : nat) : result Restaurant :=
  let parts := partsOf line in
  let name := nameOf parts in
  let cuisine := cuisineOf parts in
  let priceLevel := priceLevelOf parts in
  let rating := ratingOf parts in
  let description := descriptionOf parts in
  bind (mapUriOf chunks name) (fun mapUri =>
  Ok {| id := lit "rest-" ++ ofInteger (Z.of_nat index) ++ lit "-"
               ++ ofInteger (now index);
        name := name;
        cuisine := cuisine;
        priceLevel := priceLevel;
        rating := rating;
        description := description;
        mapUri := mapUri |}).

(** The body of the [try] block once the response has arrived. *)
Definition restaurantsOf (response : GenerateContentResponse)
    : result (list Restaurant) :=
  let text := textOf response in
  let chunks := chunksOf response in
  let lines := linesOf text in
  mapIndexed (restaurantOf chunks) 0%nat (firstn 5 lines).

(** The whole function: what was logged, and how the promise settles. *)
Definition fetchRecommendations (served : Awaited)
    : list LogEntry * result (list Restaurant) :=
  let attempt :=
    match served with
    | Resolves response => restaurantsOf response
    | Rejects error => Throw error
    end in
  match attempt with
  | Ok restaurants => ([], Ok restaurants)
  | Throw error =>
      ([ConsoleError (lit "Error fetching recommendations:") error],
       Throw error)
  end.

End Fetch.

(** Lower-casing of Basic Latin, which is what [toLowerCase] does on text
    made of ASCII and of characters without case. *)
Definition lowerBasicLatin (s : jsstring) : jsstring :=
  map (fun c => if (0x41 <=? c) && (c <=? 0x5A) then c + 0x20 else c) s.

Definition respond (text : jsstring) (chunks : list GroundingChunk)
    : GenerateContentResponse :=
  {| text := Some text;
     candidates :=
       Some [{| groundingMetadata :=
                  Some {| groundingChunks := Some chunks |} |}] |}.

Definition taipei : GeoLocation := {| lat := "25.033"; lng := "121.5654" |}.


(** ** Sample inputs *)

(** The name of the prompt's example line, and the line itself with four
    fields after it. *)
Definition dinTaiFung : jsstring := [0x9F0E; 0x6CF0; 0x8C50].

Definition sampleLine : jsstring :=
  dinTaiFung ++ lit " | noodles | $$ | 4.5 | Thin-skinned soup dumplings.".

(** A qualifying line whose name is a high surrogate with no low surrogate
    after it. *)
Definition unpairedLine : jsstring := [0xD800; pipe].

Definition fiveUnpaired : jsstring :=
  unpairedLine ++ newline :: unpairedLine ++ newline :: unpairedLine
    ++ newline :: unpairedLine ++ newline :: unpairedLine.

(** A reply with a preamble and six qualifying lines, some of them short of
    fields or decorated the way a list item is. *)
Definition sampleText : jsstring :=
  lit "Here are some places:" ++ newline ::
  sampleLine ++ newline ::
  lit "2. **Sushi Bar** | Japanese | $$$ | 4.0 | Fresh." ++ newline ::
  lit "Ramen |  | $ " ++ newline ::
  lit " | cafe" ++ newline ::
  lit "Bistro | French | $$ | 4.2 | Cosy. | more" ++ newline ::
  lit "Sixth | any | $ | 3 | Not kept.".

Definition shortText : jsstring :=
  lit "Only two today." ++ newline ::
  sampleLine ++ newline ::
  lit "Ramen |  | $ ".

Definition taipeiBranch : GroundingChunk :=
  {| web := None;
     maps := Some {| uri := Some (lit "U1");
                     title := Some (lit "Din Tai Fung Taipei") |} |}.

Definition lowerCaseLine : jsstring :=
  lit "din tai fung | Taiwanese | $$ | 4.5 | Soup dumplings.".

(** A chunk with a URI from each source, after one that names another
    place. *)
Definition bothSources : GroundingChunk :=
  {| web := Some {| uri := Some (lit "https://example.com/sushi");
                    title := Some (lit "Sushi Bar - home") |};
     maps := Some {| uri := Some (lit "https://maps.example/sushi");
                     title := Some (lit "SUSHI BAR") |} |}.

(** A chunk with a web URI only, and one that names a place but has no URI
    to give. *)
Definition webOnly : GroundingChunk :=
  {| web := Some {| uri := Some (lit "https://example.com/ramen");
                    title := Some (lit "Ramen Ya | Official") |};
     maps := Some {| uri := Some []; title := None |} |}.

Definition untitledLink : GroundingChunk :=
  {| web := Some {| uri := None; title := Some (lit "Sushi Bar reviews") |};
     maps := None |}.

Definition midnight : nat -> Z := fun _ => 1700000000000.

(** ** Vocabulary of the statements *)

(** The record [r] carries the five fields parsed from [line]. *)
Definition readsLine (r : Restaurant) (line : jsstring) : Prop :=
  let parts := partsOf line in
  name r = nameOf parts /\
  cuisine r = cuisineOf parts /\
  priceLevel r = priceLevelOf parts /\
  rating r = ratingOf parts /\
  description r = descriptionOf parts.

(** The five fields by position, and the placeholder of each. *)
Definition fieldOf (i : nat) (parts : list jsstring) : jsstring :=
  match i with
  | 0%nat => nameOf parts
  | 1%nat => cuisineOf parts
  | 2%nat => priceLevelOf parts
  | 3%nat => ratingOf parts
  | _ => descriptionOf parts
  end.

Definition defaultOf (i : nat) : jsstring :=
  match i with
  | 0%nat => unknownRestaurant
  | 1%nat => defaultCuisine
  | 2%nat => defaultPrice
  | 3%nat => defaultRating
  | _ => defaultDescription
  end.

(** A record with its identifier blanked. *)
Definition withoutId (r : Restaurant) : Restaurant :=
  {| id := [];
     name := name r;
     cuisine := cuisine r;
     priceLevel := priceLevel r;
     rating := rating r;
     description := description r;
     mapUri := mapUri r |}.

(** The matched chunk, if there is one, has neither a maps URI nor a web URI
    that the code would take. *)
Definition ungrounded (matched : option GroundingChunk) : Prop :=
  match matched with
  | None => True
  | Some c => usable (uriOf (maps c)) = false /\ usable (uriOf (web c)) = false
  end.

(** The five fields a record takes from its line. *)
Definition parsedFields (r : Restaurant) : list jsstring :=
  [name r; cuisine r; priceLevel r; rating r; description r].

(** A string of JavaScript proper: every code unit fits in 16 bits. *)
Definition codeUnits (s : jsstring) : Prop :=
  Forall (fun c => 0 <= c < 0x10000) s.

(** The code units a percent-encoded URI component is made of: the
    unreserved characters and the percent sign. *)
Definition isUriSafe (c : Z) : bool := isUnescaped c || (c =? 0x25).

(** The line format the prompt dictates, instruction 4 of the prompt:
    ["NAME | CUISINE | PRICE_ESTIMATE | RATING | ONE_SENTENCE_DESCRIPTION"]. *)
Definition formatLine (n c p r d : jsstring) : jsstring :=
  n ++ lit " | " ++ c ++ lit " | " ++ p ++ lit " | " ++ r ++ lit " | " ++ d.

(** A field as the prompt asks for it: not empty, without a pipe, and with
    no white space at either end. *)
Definition cleanField (f : jsstring) : Prop :=
  f <> [] /\ ~ In pipe f /\ trim f = f.

(** The response has no grounding chunk to offer: a key on the way to
    [groundingChunks] is missing, or the list is empty. *)
Definition noGrounding (response : GenerateContentResponse) : Prop :=
  candidates response = None \/
  candidates response = Some [] \/
  exists candidate others,
    candidates response = Some (candidate :: others) /\
    (groundingMetadata candidate = None \/
     exists metadata,
       groundingMetadata candidate = Some metadata /\
       (groundingChunks metadata = None \/
        groundingChunks metadata = Some [])).

(** A text with a carriage return put before each of its line feeds. *)
Fixpoint withCarriageReturns (s : jsstring) : jsstring :=
  match s with
  | [] => []
  | c :: r =>
      if c =? newline then 0x0D :: newline :: withCarriageReturns r
      else c :: withCarriageReturns r
  end.

(** ** The component that calls the service

    [App] keeps one state object and changes it only through [setState] with
    a function of the previous state.  Each handler is modelled as what it
    makes of the previous state together with the calls it starts; the
    callbacks that run later (the position callbacks, the [then] and [catch]
    of the fetch) are events of their own.  A handler reads [state] from the
    render it belongs to, which is passed as [rendered]. *)

Module App.

Section Filters.

(** Modelled from the spec: [types.ts], which declares [PriceLevel],
    [DistanceRange] and [AppState], is not among the sources.  The two
    enumerations are the filter values the caller selects, of which the
    component names [MODERATE] and [WALKABLE]; the state has the eight fields
    the component initialises. *)
Context {PriceLevel DistanceRange : Type}.
Variable MODERATE : PriceLevel.
Variable WALKABLE : DistanceRange.

Record AppState : Type := {
  location : option GeoLocation;
  locationError : option jsstring;
  selectedCategory : option jsstring;
  selectedPrice : PriceLevel;
  selectedDistance : DistanceRange;
  isLoading : bool;
  recommendations : list Restaurant;
  error : option jsstring
}.

Definition initialState : AppState :=
  {| location := None;
     locationError := None;
     selectedCategory := None;
     selectedPrice := MODERATE;
     selectedDistance := WALKABLE;
     isLoading := false;
     recommendations := [];
     error := None |}.

(** The arguments of one call of [fetchRecommendations]. *)
Record Request : Type := {
  place : GeoLocation;
  category : jsstring;
  price : PriceLevel;
  distance : DistanceRange
}.

(** The two places a fetch is started from: [handleSearch] and
    [handleCategorySelect]. *)
Inductive Origin : Type :=
| BySearch
| ByCategory.

(** What a handler starts: [navigator.geolocation.getCurrentPosition] or a
    call of [fetchRecommendations]. *)
Inductive Effect : Type :=
| GetCurrentPosition
| Fetch (origin : Origin) (request : Request).

Inductive Event : Type :=
| Locate (supported : bool)
| PositionFound (lat lng : string)
| PositionFailed (code : Z)
| Search
| SelectCategory (id : jsstring)
| Retry
| Settled (origin : Origin) (outcome : result (list Restaurant))
| ChangePrice (p : PriceLevel)
| ChangeDistance (d : DistanceRange)
| Reset.

(** The messages, by their code units. *)
Definition unsupportedMessage : jsstring :=
  [0x60A8; 0x7684; 0x700F; 0x89BD; 0x5668; 0x4E0D; 0x652F; 0x63F4; 0x5730;
   0x7406; 0x5B9A; 0x4F4D].
Definition noPositionMessage : jsstring :=
  [0x7121; 0x6CD5; 0x53D6; 0x5F97; 0x4F4D; 0x7F6E].
Definition deniedMessage : jsstring :=
  [0x8ACB; 0x5141; 0x8A31; 0x5B58; 0x53D6; 0x4F4D; 0x7F6E; 0x4EE5; 0x5C0B;
   0x627E; 0x9644; 0x8FD1; 0x9910; 0x5EF3].
Definition unavailableMessage : jsstring :=
  [0x4F4D; 0x7F6E; 0x8CC7; 0x8A0A; 0x7121; 0x6CD5; 0x4F7F; 0x7528].
Definition timeoutMessage : jsstring :=
  [0x5B9A; 0x4F4D; 0x903E; 0x6642; 0xFF0C; 0x8ACB; 0x91CD; 0x8A66].
Definition searchMessage : jsstring :=
  [0x41; 0x49; 0x20; 0x66AB; 0x6642; 0x7121; 0x6CD5; 0x56DE; 0x61C9; 0xFF0C;
   0x8ACB; 0x7A0D; 0x5F8C; 0x518D; 0x8A66; 0x6216; 0x6AA2; 0x67E5; 0x7DB2;
   0x8DEF; 0x9023; 0x7DDA; 0x3002].
Definition categoryMessage : jsstring :=
  [0x41; 0x49; 0x20; 0x641C; 0x5C0B; 0x5931; 0x6557; 0xFF0C; 0x8ACB; 0x7A0D;
   0x5F8C; 0x518D; 0x8A66; 0x3002].

(** The codes of a [GeolocationPositionError]. *)
Definition PERMISSION_DENIED : Z := 1.
Definition POSITION_UNAVAILABLE : Z := 2.
Definition TIMEOUT : Z := 3.

(** [getLocation]: the loading flag goes up and the old location error
    goes; without [navigator.geolocation] the flag comes down again with the
    message, otherwise the position is asked for. *)
Definition getLocation (supported : bool) (prev : AppState)
    : AppState * list Effect :=
  let asking :=
    {| location := location prev;
       locationError := None;
       selectedCategory := selectedCategory prev;
       selectedPrice := selectedPrice prev;
       selectedDistance := selectedDistance prev;
       isLoading := true;
       recommendations := recommendations prev;
       error := error prev |} in
  if supported then (asking, [GetCurrentPosition])
  else
    ({| location := location asking;
        locationError := Some unsupportedMessage;
        selectedCategory := selectedCategory asking;
        selectedPrice := selectedPrice asking;
        selectedDistance := selectedDistance asking;
        isLoading := false;
        recommendations := recommendations asking;
        error := error asking |}, []).

(** The success callback of [getCurrentPosition]. *)
Definition positionFound (lat lng : string) (prev : AppState) : AppState :=
  {| location := Some {| lat := lat; lng := lng |};
     locationError := locationError prev;
     selectedCategory := selectedCategory prev;
     selectedPrice := selectedPrice prev;
     selectedDistance := selectedDistance prev;
     isLoading := false;
     recommendations := recommendations prev;
     error := error prev |}.

(** The error callback of [getCurrentPosition], with its [switch]. *)
Definition positionFailed (code : Z) (prev : AppState) : AppState :=
  let errorMsg :=
    if code =? PERMISSION_DENIED then deniedMessage
    else if code =? POSITION_UNAVAILABLE then unavailableMessage
    else if code =? TIMEOUT then timeoutMessage
    else noPositionMessage in
  {| location := location prev;
     locationError := Some errorMsg;
     selectedCategory := selectedCategory prev;
     selectedPrice := selectedPrice prev;
     selectedDistance := selectedDistance prev;
     isLoading := false;
     recommendations := recommendations prev;
     error := error prev |}.

(** The update both handlers make before they fetch. *)
Definition searching (category : option jsstring) (prev : AppState)
    : AppState :=
  {| location := location prev;
     locationError := locationError prev;
     selectedCategory := category;
     selectedPrice := selectedPrice prev;
     selectedDistance := selectedDistance prev;
     isLoading := true;
     recommendations := [];
     error := None |}.

(** [handleSearch], up to its [await]: nothing happens without a location
    or with no category, the empty string counting as none. *)
Definition handleSearch (rendered prev : AppState)
    : AppState * list Effect :=
  match location rendered, selectedCategory rendered with
  | Some place, Some (c :: id) =>
      (searching (selectedCategory prev) prev,
       [Fetch BySearch
          {| place := place;
             category := c :: id;
             price := selectedPrice rendered;
             distance := selectedDistance rendered |}])
  | _, _ => (prev, [])
  end.

(** [handleCategorySelect(id)]: the category is always recorded; the fetch
    starts only when a location is known. *)
Definition handleCategorySelect (rendered : AppState) (id : jsstring)
    (prev : AppState) : AppState * list Effect :=
  let selected :=
    {| location := location prev;
       locationError := locationError prev;
       selectedCategory := Some id;
       selectedPrice := selectedPrice prev;
       selectedDistance := selectedDistance prev;
       isLoading := isLoading prev;
       recommendations := recommendations prev;
       error := error prev |} in
  match location rendered with
  | Some place =>
      (searching (Some id) selected,
       [Fetch ByCategory
          {| place := place;
             category := id;
             price := selectedPrice rendered;
             distance := selectedDistance rendered |}])
  | None => (selected, [])
  end.

(** The button of the error pane:
    [state.selectedCategory && handleCategorySelect(state.selectedCategory)]. *)
Definition retry (rendered prev : AppState) : AppState * list Effect :=
  match selectedCategory rendered with
  | Some (c :: id) => handleCategorySelect rendered (c :: id) prev
  | Some [] => (prev, [])
  | None => (prev, [])
  end.

(** What happens when the promise of a fetch settles: the code after
    [await] and the [catch] block of [handleSearch], or the [then] and
    [catch] callbacks of [handleCategorySelect]. *)
Definition settled (origin : Origin) (outcome : result (list Restaurant))
    (prev : AppState) : AppState :=
  match outcome with
  | Ok results =>
      {| location := location prev;
         locationError := locationError prev;
         selectedCategory := selectedCategory prev;
         selectedPrice := selectedPrice prev;
         selectedDistance := selectedDistance prev;
         isLoading := false;
         recommendations := results;
         error := error prev |}
  | Throw _ =>
      {| location := location prev;
         locationError := locationError prev;
         selectedCategory := selectedCategory prev;
         selectedPrice := selectedPrice prev;
         selectedDistance := selectedDistance prev;
         isLoading := false;
         recommendations := recommendations prev;
         error := Some match origin with
                       | BySearch => searchMessage
                       | ByCategory => categoryMessage
                       end |}
  end.

(** [onPriceChange], [onDistanceChange] and the button that starts over. *)
Definition changePrice (p : PriceLevel) (prev : AppState) : AppState :=
  {| location := location prev;
     locationError := locationError prev;
     selectedCategory := selectedCategory prev;
     selectedPrice := p;
     selectedDistance := selectedDistance prev;
     isLoading := isLoading prev;
     recommendations := recommendations prev;
     error := error prev |}.

Definition changeDistance (d : DistanceRange) (prev : AppState) : AppState :=
  {| location := location prev;
     locationError := locationError prev;
     selectedCategory := selectedCategory prev;
     selectedPrice := selectedPrice prev;
     selectedDistance := d;
     isLoading := isLoading prev;
     recommendations := recommendations prev;
     error := error prev |}.

Definition reset (prev : AppState) : AppState :=
  {| location := location prev;
     locationError := locationError prev;
     selectedCategory := None;
     selectedPrice := selectedPrice prev;
     selectedDistance := selectedDistance prev;
     isLoading := isLoading prev;
     recommendations := [];
     error := error prev |}.

(** One event on the state as last rendered. *)
Definition step (s : AppState) (e : Event) : AppState * list Effect :=
  match e with
  | Locate supported => getLocation supported s
  | PositionFound lat lng => (positionFound lat lng s, [])
  | PositionFailed code => (positionFailed code s, [])
  | Search => handleSearch s s
  | SelectCategory id => handleCategorySelect s id s
  | Retry => retry s s
  | Settled origin outcome => (settled origin outcome s, [])
  | ChangePrice p => (changePrice p s, [])
  | ChangeDistance d => (changeDistance d s, [])
  | Reset => (reset s, [])
  end.

(** The events one after the other, with everything they start. *)
Fixpoint run (s : AppState) (events : list Event)
    : AppState * list Effect :=
  match events with
  | [] => (s, [])
  | e :: rest =>
      let (s', started) := step s e in
      let (final, later) := run s' rest in
      (final, started ++ later)
  end.

Definition fetches (effects : list Effect) : nat :=
  length (filter (fun effect => match effect with
                                | Fetch _ _ => true
                                | GetCurrentPosition => false
                                end) effects).

(** The fetches never overlap: going through the events with [pending]
    calls under way, a promise settles only when one call is under way, and
    a call starts only when none is. *)
Fixpoint oneAtATime (pending : nat) (s : AppState) (events : list Event)
    : bool :=
  match events with
  | [] => true
  | e :: rest =>
      let (s', started) := step s e in
      match e with
      | Settled _ _ =>
          (pending =? 1)%nat && oneAtATime 0 s' rest
      | _ =>
          (pending + fetches started <=? 1)%nat
          && oneAtATime (pending + fetches started) s' rest
      end
  end.

(** What holds of the error and the list with [pending] fetches under
    way. *)
Definition settledOrWaiting (pending : nat) (s : AppState) : Prop :=
  match pending with
  | 0%nat => error s <> None -> recommendations s = []
  | 1%nat => error s = None /\ recommendations s = []
  | _ => False
  end.

(** The position of the last success callback among the events, if there
    was one. *)
Fixpoint lastPosition (events : list Event) : option GeoLocation :=
  match events with
  | [] => None
  | e :: rest =>
      match lastPosition rest with
      | Some place => Some place
      | None =>
          match e with
          | PositionFound lat lng => Some {| lat := lat; lng := lng |}
          | _ => None
          end
      end
  end.

End Filters.

(** Sample runs, with texts for the filter values. *)
Definition sampleRestaurants : list Restaurant :=
  match snd (fetchRecommendations lowerBasicLatin midnight taipei
               (Resolves (respond sampleText [taipeiBranch]))) with
  | Ok restaurants => restaurants
  | Throw _ => []
  end.

Definition sampleStart : @AppState jsstring jsstring :=
  initialState (lit "$$") (lit "1km").

Definition resolvedRun : list (@Event jsstring jsstring) :=
  [Locate true; PositionFound "25.033" "121.5654";
   SelectCategory (lit "noodles");
   Settled ByCategory (Ok sampleRestaurants)].

Definition quietRun : list (@Event jsstring jsstring) :=
  [Locate true; PositionFound "25.033" "121.5654";
   SelectCategory (lit "noodles");
   Settled ByCategory (Ok sampleRestaurants);
   Reset; ChangePrice (lit "$"); SelectCategory (lit "sushi");
   Settled ByCategory (Throw (Rejected (lit "503")))].

(** Two fetches under way at once: the first resolves after the second was
    started, and the second then fails. *)
Definition overlappingRun : list (@Event jsstring jsstring) :=
  [Locate true; PositionFound "25.033" "121.5654";
   SelectCategory (lit "noodles"); SelectCategory (lit "sushi");
   Settled ByCategory (Ok sampleRestaurants);
   Settled ByCategory (Throw (Rejected (lit "503")))].

(** A list that some call of [fetchRecommendations] returned. *)
Definition Fetched (restaurants : list Restaurant) : Prop :=
  exists toLowerCase now location response log,
    fetchRecommendations toLowerCase now location (Resolves response)
    = (log, Ok restaurants).

End App.

(** ** What a percent-encoded component stands for

    The reading that [decodeURIComponent] makes of a URI component, written
    with division and remainder after RFC 3986 and the UTF-8 and UTF-16
    encoding forms: the escapes are read as octets, the octets as code
    points, the code points as code units.  It is what the statements use to
    say what an encoded text encodes. *)

Module Percent.

(** The characters an encoded component is made of: the unreserved ones and
    the percent sign. *)
Definition alphabet : jsstring :=
  lit "ABCDEFGHIJKLMNOPQRSTUVWXYZabcdefghijklmnopqrstuvwxyz0123456789-_.!~*'()%".

Definition hexValue (c : Z) : option Z :=
  if (0x30 <=? c) && (c <=? 0x39) then Some (c - 0x30)
  else if (0x41 <=? c) && (c <=? 0x46) then Some (c - 0x41 + 10)
  else if (0x61 <=? c) && (c <=? 0x66) then Some (c - 0x61 + 10)
  else None.

(** The octets: [%XY] stands for the octet 16 X + Y, an ASCII character for
    itself. *)
Fixpoint octets (e : jsstring) : option (list Z) :=
  match e with
  | [] => Some []
  | c :: r =>
      if c =? 0x25 then
        match r with
        | h :: l :: r' =>
            match hexValue h, hexValue l, octets r' with
            | Some a, Some b, Some bs => Some (16 * a + b :: bs)
            | _, _, _ => None
            end
        | _ => None
        end
      else if (0 <=? c) && (c <? 0x80) then option_map (cons c) (octets r)
      else None
  end.

Definition isContinuation (b : Z) : bool := (0x80 <=? b) && (b <? 0xC0).

(** The code points the octets are the UTF-8 form of. *)
Fixpoint codePoints (bs : list Z) : option (list Z) :=
  match bs with
  | [] => Some []
  | b :: r =>
      if b <? 0x80 then option_map (cons b) (codePoints r)
      else if b <? 0xC0 then None
      else if b <? 0xE0 then
        match r with
        | b1 :: r' =>
            if isContinuation b1
            then option_map (cons ((b - 0xC0) * 64 + (b1 - 0x80)))
                   (codePoints r')
            else None
        | _ => None
        end
      else if b <? 0xF0 then
        match r with
        | b1 :: b2 :: r' =>
            if isContinuation b1 && isContinuation b2
            then option_map
                   (cons ((b - 0xE0) * 4096 + (b1 - 0x80) * 64 + (b2 - 0x80)))
                   (codePoints r')
            else None
        | _ => None
        end
      else if b <? 0xF8 then
        match r with
        | b1 :: b2 :: b3 :: r' =>
            if isContinuation b1 && isContinuation b2 && isContinuation b3
            then option_map
                   (cons ((b - 0xF0) * 262144 + (b1 - 0x80) * 4096
                          + (b2 - 0x80) * 64 + (b3 - 0x80)))
                   (codePoints r')
            else None
        | _ => None
        end
      else None
  end.

(** The code units of code points: one for a code point of the basic plane,
    a surrogate pair for the others. *)
Fixpoint codeUnitsOf (cps : list Z) : jsstring :=
  match cps with
  | [] => []
  | cp :: r =>
      if cp <? 0x10000 then cp :: codeUnitsOf r
      else (0xD800 + (cp - 0x10000) / 0x400)
             :: (0xDC00 + (cp - 0x10000) mod 0x400) :: codeUnitsOf r
  end.

Definition decoded (e : jsstring) : option jsstring :=
  match octets e with
  | Some bs => option_map codeUnitsOf (codePoints bs)
  | None => None
  end.

End Percent.

(** A line cut in the middle of an emoji: its name ends in a high surrogate
    whose low surrogate is gone. *)
Definition halfEmojiLine : jsstring :=
  lit "Cafe " ++ 0xD83D :: lit " | coffee".

(** ** Facts about the string methods *)

Module JSFacts.

Lemma split_cons (sep : Z) (s : jsstring) :
  exists p ps, split sep s = p :: ps.
Proof.
  induction s as [|c r IH]; simpl.
  - now exists [], [].
  - destruct (c =? sep); [now eexists _, _|].
    destruct IH as (p & ps & ->). now eexists _, _.
Qed.

Lemma split_length (sep : Z) (s : jsstring) :
  (1 <= length (split sep s))%nat.
Proof.
  destruct (split_cons sep s) as (p & ps & ->). simpl. lia.
Qed.

Lemma startsWith_app (s sub : jsstring) :
  startsWith s sub = true <-> exists post, s = sub ++ post.
Proof.
  revert s. induction sub as [|a sub IH]; intros s; simpl.
  - split; [now exists s|reflexivity].
  - destruct s as [|b s].
    + split; [discriminate|]. now intros (post & H).
    + rewrite andb_true_iff, Z.eqb_eq, IH. split.
      * intros (-> & post & ->). now exists post.
      * intros (post & H). injection H as -> ->. split; [reflexivity|now exists post].
Qed.

(** [includes] is containment as a contiguous run. *)
Lemma includes_app (s sub : jsstring) :
  includes s sub = true <-> exists pre post, s = pre ++ sub ++ post.
Proof.
  induction s as [|c r IH].
  - simpl. rewrite orb_false_r, startsWith_app. split.
    + intros (post & H). now exists [], post.
    + intros (pre & post & H). destruct pre as [|x pre]; [|discriminate].
      now exists post.
  - cbn [includes]. rewrite orb_true_iff, startsWith_app, IH. split.
    + intros [(post & H)|(pre & post & H)].
      * now exists [], post.
      * exists (c :: pre), post. now rewrite H.
    + intros (pre & post & H). destruct pre as [|x pre].
      * left. now exists post.
      * right. injection H as -> ->. now exists pre, post.
Qed.

Lemma includes_unit (s : jsstring) (c : Z) :
  includes s [c] = true <-> In c s.
Proof.
  rewrite includes_app. split.
  - intros (pre & post & ->). apply in_elt.
  - intros H. apply in_split in H as (pre & post & ->). now exists pre, post.
Qed.

Lemma skipWhile_all (p : Z -> bool) (s : jsstring) :
  Forall (fun c => p c = true) s -> skipWhile p s = [].
Proof.
  induction 1 as [|c r Hc _ IH]; simpl; [reflexivity|now rewrite Hc].
Qed.

Lemma skipWhile_app (p : Z -> bool) (s r : jsstring) :
  Forall (fun c => p c = true) s -> skipWhile p (s ++ r) = skipWhile p r.
Proof.
  induction 1 as [|c s' Hc _ IH]; simpl; [reflexivity|now rewrite Hc].
Qed.

Lemma stripAsterisks_clean (s : jsstring) : ~ In 0x2A (stripAsterisks s).
Proof.
  unfold stripAsterisks. intros H. apply filter_In in H as [_ H].
  now rewrite Z.eqb_refl in H.
Qed.

Lemma surrogate_escaped (c : Z) :
  isHighSurrogate c = true \/ isLowSurrogate c = true -> isUnescaped c = false.
Proof.
  unfold isHighSurrogate, isLowSurrogate, isUnescaped. lia.
Qed.

Lemma wellFormed_WellFormed (s : jsstring) :
  wellFormed s = true <-> WellFormed s.
Proof.
  split.
  - remember (length s) as n eqn:Hn. revert s Hn.
    induction n as [n IH] using lt_wf_ind. intros s Hn H.
    destruct s as [|c r]; [constructor|]. simpl in H.
    destruct (isHighSurrogate c) eqn:Hc.
    + destruct r as [|d r']; [discriminate|].
      apply andb_true_iff in H as [Hd H].
      apply wf_pair; trivial.
      apply (IH (length r')); trivial. simpl in Hn. lia.
    + apply andb_true_iff in H as [Hd H]. apply negb_true_iff in Hd.
      apply wf_unit; trivial.
      apply (IH (length r)); trivial. simpl in Hn. lia.
  - induction 1 as [|c r Hc Hl _ IH|hi lo r Hh Hl _ IH]; simpl.
    + reflexivity.
    + now rewrite Hc, Hl, IH.
    + now rewrite Hh, Hl, IH.
Qed.

End JSFacts.

(** ** Well-formed strings and percent-encoding

    [encodeURIComponent] succeeds exactly on well-formed strings, and every
    method the parser applies to the response text keeps a string
    well-formed: none of them can cut a surrogate pair in two. *)

Module Encoding.
Import JSFacts.

Lemma plain_small (c : Z) : 0 <= c < 0xD800 -> plain c.
Proof. unfold plain, isHighSurrogate, isLowSurrogate. lia. Qed.

Lemma whitespace_plain (c : Z) : isWhiteSpace c = true -> plain c.
Proof. unfold plain, isWhiteSpace, isHighSurrogate, isLowSurrogate. lia. Qed.

Lemma digit_plain (c : Z) : isDigit c = true -> plain c.
Proof. unfold plain, isDigit, isHighSurrogate, isLowSurrogate. lia. Qed.

Lemma WellFormed_plain (s : jsstring) : Forall plain s -> WellFormed s.
Proof.
  induction 1 as [|c r [Hh Hl] _ IH]; [constructor|now apply wf_unit].
Qed.

Lemma WellFormed_lit (s : string) : WellFormed (lit s).
Proof.
  apply WellFormed_plain. unfold lit. apply Forall_map.
  apply Forall_forall. intros a _. apply plain_small.
  pose proof (N_ascii_bounded a). lia.
Qed.

Lemma WellFormed_app (a b : jsstring) :
  WellFormed a -> WellFormed b -> WellFormed (a ++ b).
Proof.
  induction 1; intros Hb; simpl; [assumption|apply wf_unit|apply wf_pair];
    auto.
Qed.

Lemma WellFormed_tail (c : Z) (r : jsstring) :
  plain c -> WellFormed (c :: r) -> WellFormed r.
Proof.
  intros [Hh Hl] H. inversion H; subst; [assumption|congruence].
Qed.

Lemma WellFormed_split (sep : Z) (s : jsstring) :
  plain sep -> WellFormed s -> Forall WellFormed (split sep s).
Proof.
  intros [Sh Sl]. induction 1 as [|c r Hc Hl Hr IH|hi lo r Hh Hl Hr IH].
  - repeat constructor.
  - simpl. destruct (c =? sep).
    + constructor; [constructor|assumption].
    + destruct (split_cons sep r) as (p & ps & E). rewrite E in *.
      inversion IH; subst. constructor; [now apply wf_unit|assumption].
  - assert ((hi =? sep) = false) as Eh
      by (apply Z.eqb_neq; intros ->; congruence).
    assert ((lo =? sep) = false) as El
      by (apply Z.eqb_neq; intros ->; congruence).
    cbn [split]. rewrite Eh, El.
    destruct (split_cons sep r) as (p & ps & E). rewrite E in *.
    inversion IH; subst. constructor; [now apply wf_pair|assumption].
Qed.

Lemma WellFormed_skipWhile (p : Z -> bool) (s : jsstring) :
  (forall c, p c = true -> plain c) ->
  WellFormed s -> WellFormed (skipWhile p s).
Proof.
  intros Hp. induction 1 as [|c r Hc Hl Hr IH|hi lo r Hh Hl Hr IH]; simpl.
  - constructor.
  - destruct (p c); [assumption|now apply wf_unit].
  - destruct (p hi) eqn:E; [|now apply wf_pair].
    apply Hp in E as [E _]. congruence.
Qed.

Lemma WellFormed_trimEnd (s : jsstring) :
  WellFormed s -> WellFormed (trimEnd s).
Proof.
  induction 1 as [|c r Hc Hl Hr IH|hi lo r Hh Hl Hr IH].
  - constructor.
  - simpl. destruct (trimEnd r) as [|t ts].
    + destruct (isWhiteSpace c); [constructor|now apply wf_unit].
    + now apply wf_unit.
  - assert (isWhiteSpace lo = false) as Wl.
    { destruct (isWhiteSpace lo) eqn:E; [|reflexivity].
      apply whitespace_plain in E as [_ E]. congruence. }
    cbn [trimEnd]. destruct (trimEnd r) as [|t ts].
    + rewrite Wl. apply wf_pair; auto using wf_empty.
    + now apply wf_pair.
Qed.

Lemma WellFormed_trim (s : jsstring) : WellFormed s -> WellFormed (trim s).
Proof.
  intros H. unfold trim, trimStart.
  apply WellFormed_skipWhile; [exact whitespace_plain|].
  now apply WellFormed_trimEnd.
Qed.

Lemma WellFormed_stripOrdinal (s : jsstring) :
  WellFormed s -> WellFormed (stripOrdinal s).
Proof.
  intros H. unfold stripOrdinal. destruct s as [|d r]; [assumption|].
  destruct (isDigit d); [|assumption].
  pose proof (WellFormed_skipWhile isDigit (d :: r) digit_plain H) as Hs.
  destruct (skipWhile isDigit (d :: r)) as [|dot r']; [assumption|].
  destruct (dot =? 0x2E) eqn:E; [|assumption].
  apply Z.eqb_eq in E. subst dot.
  apply WellFormed_skipWhile; [exact whitespace_plain|].
  apply (WellFormed_tail 0x2E); [now apply plain_small|assumption].
Qed.

Lemma WellFormed_stripAsterisks (s : jsstring) :
  WellFormed s -> WellFormed (stripAsterisks s).
Proof.
  unfold stripAsterisks.
  induction 1 as [|c r Hc Hl Hr IH|hi lo r Hh Hl Hr IH]; simpl.
  - constructor.
  - destruct (negb (c =? 0x2A)); [now apply wf_unit|assumption].
  - assert ((hi =? 0x2A) = false) as ->
      by (unfold isHighSurrogate in Hh; lia).
    assert ((lo =? 0x2A) = false) as ->
      by (unfold isLowSurrogate in Hl; lia).
    simpl. now apply wf_pair.
Qed.

(** A well-formed string can be percent-encoded. *)
Lemma encodeURIComponent_WellFormed (s : jsstring) :
  WellFormed s -> exists encoded, encodeURIComponent s = Ok encoded.
Proof.
  induction 1 as [|c r Hc Hl Hr [e IH]|hi lo r Hh Hl Hr [e IH]]; simpl.
  - now eexists.
  - rewrite Hc, Hl, IH. destruct (isUnescaped c); now eexists.
  - rewrite (surrogate_escaped hi), Hh, Hl, IH by now left. now eexists.
Qed.

(** And only a well-formed string can: the one exception the function
    raises is URIError, on an unpaired surrogate. *)
Lemma encodeURIComponent_Throw (s : jsstring) (e : exn) :
  encodeURIComponent s = Throw e -> e = URIError /\ wellFormed s = false.
Proof.
  remember (length s) as n eqn:Hn. revert s Hn.
  induction n as [n IH] using lt_wf_ind. intros s Hn.
  destruct s as [|c r]; [discriminate|]. simpl in Hn.
  assert (forall (f : jsstring -> jsstring) t,
    (length t < n)%nat -> fmap f (encodeURIComponent t) = Throw e ->
    e = URIError /\ wellFormed t = false) as step.
  { intros f t Ht H. destruct (encodeURIComponent t) eqn:E; [discriminate|].
    injection H as ->. now apply (IH (length t)). }
  cbn [encodeURIComponent wellFormed].
  destruct (isHighSurrogate c) eqn:Hc.
  - rewrite (surrogate_escaped c) by now left.
    destruct r as [|d r']; [intros [= <-]; now split|].
    destruct (isLowSurrogate d); [|intros [= <-]; now split].
    intros H. apply step in H; [|simpl in Hn; lia]. now rewrite andb_true_l.
  - destruct (isUnescaped c) eqn:Uc.
    + intros H. apply step in H as [-> ->]; [|lia].
      now rewrite andb_false_r.
    + destruct (isLowSurrogate c); [intros [= <-]; now split|].
      intros H. apply step in H as [-> ->]; [|lia]. now split.
Qed.

End Encoding.

(** ** Facts about the fetcher *)

Module FetchFacts.
Import JSFacts Encoding.

Lemma In_firstn {A : Type} (n : nat) (l : list A) (a : A) :
  In a (firstn n l) -> In a l.
Proof.
  intros H. rewrite <- (firstn_skipn n l). apply in_or_app. now left.
Qed.

(** [find] stops at the first element that passes the test. *)
Lemma find_first {A : Type} (p : A -> bool) (l : list A) :
  match find p l with
  | Some c =>
      exists before after,
        l = before ++ c :: after /\ p c = true /\
        Forall (fun b => p b = false) before
  | None => Forall (fun b => p b = false) l
  end.
Proof.
  induction l as [|a l IH]; simpl; [constructor|].
  destruct (p a) eqn:Pa.
  - exists [], l. repeat split; trivial.
  - destruct (find p l) as [c|].
    + destruct IH as (before & after & -> & Pc & Hb).
      exists (a :: before), after. repeat split; trivial. now constructor.
    + now constructor.
Qed.

Lemma mapIndexed_nth {A B : Type} (f : A -> nat -> result B) (l : list A) :
  forall i rs, mapIndexed f i l = Ok rs ->
  length rs = length l /\
  forall k a, nth_error l k = Some a ->
    exists b, nth_error rs k = Some b /\ f a (i + k)%nat = Ok b.
Proof.
  induction l as [|a l IH]; intros i rs H; simpl in H.
  - injection H as <-. split; [reflexivity|]. intros [|k] a; discriminate.
  - destruct (f a i) as [b|] eqn:Fa; [|discriminate]. simpl in H.
    destruct (mapIndexed f (S i) l) as [bs|] eqn:Fl; [|discriminate].
    injection H as <-. destruct (IH _ _ Fl) as [Hlen Hnth].
    split; [simpl; now rewrite Hlen|].
    intros [|k] a' Hk; simpl in Hk.
    + injection Hk as <-. exists b. now rewrite Nat.add_0_r.
    + destruct (Hnth k a' Hk) as (b' & Hb & Hf). exists b'.
      split; [assumption|]. now rewrite Nat.add_succ_r.
Qed.

Lemma mapIndexed_Forall2 {A B : Type} (f : A -> nat -> result B)
    (l : list A) :
  forall i rs, mapIndexed f i l = Ok rs ->
  Forall2 (fun b a => exists k, f a k = Ok b) rs l.
Proof.
  induction l as [|a l IH]; intros i rs H; simpl in H.
  - injection H as <-. constructor.
  - destruct (f a i) as [b|] eqn:Fa; [|discriminate]. simpl in H.
    destruct (mapIndexed f (S i) l) as [bs|] eqn:Fl; [|discriminate].
    injection H as <-. constructor; [now exists i|now apply (IH (S i))].
Qed.

Lemma mapIndexed_total {A B : Type} (f : A -> nat -> result B)
    (l : list A) :
  Forall (fun a => forall k, exists b, f a k = Ok b) l ->
  forall i, exists rs, mapIndexed f i l = Ok rs.
Proof.
  induction 1 as [|a l Ha _ IH]; intros i; simpl; [now eexists|].
  destruct (Ha i) as [b ->]. destruct (IH (S i)) as [bs ->]. now eexists.
Qed.

Lemma mapIndexed_Throw {A B : Type} (f : A -> nat -> result B)
    (l : list A) (e : exn) :
  forall i, mapIndexed f i l = Throw e ->
  exists a k, In a l /\ f a k = Throw e.
Proof.
  induction l as [|a l IH]; intros i H; simpl in H; [discriminate|].
  destruct (f a i) as [b|e'] eqn:Fa.
  - simpl in H. destruct (mapIndexed f (S i) l) as [bs|e'] eqn:Fl;
      [discriminate|]. injection H as ->.
    destruct (IH _ Fl) as (a' & k & Hin & Hf). exists a', k.
    split; [now right|assumption].
  - injection H as ->. exists a, i. split; [now left|assumption].
Qed.

Lemma mapIndexed_ext {A B : Type} (f g : A -> nat -> result B)
    (l : list A) :
  forall i,
  (forall a k, (i <= k < i + length l)%nat -> f a k = g a k) ->
  mapIndexed f i l = mapIndexed g i l.
Proof.
  induction l as [|a l IH]; intros i H; simpl; [reflexivity|].
  rewrite H by (simpl; lia). rewrite (IH (S i)); [reflexivity|].
  intros a' k Hk. apply H. simpl. lia.
Qed.

Lemma mapIndexed_fmap {A B C : Type} (f g : A -> nat -> result B)
    (h : B -> C) (l : list A) :
  (forall a k, fmap h (f a k) = fmap h (g a k)) ->
  forall i, fmap (map h) (mapIndexed f i l) = fmap (map h) (mapIndexed g i l).
Proof.
  intros H. induction l as [|a l IH]; intros i; simpl; [reflexivity|].
  specialize (H a i). specialize (IH (S i)).
  destruct (f a i), (g a i); simpl in *; try discriminate.
  - injection H as H.
    destruct (mapIndexed f (S i) l), (mapIndexed g (S i) l); simpl in *;
      try discriminate; congruence.
  - congruence.
Qed.

Lemma WellFormed_linesOf (text : jsstring) :
  WellFormed text -> Forall WellFormed (linesOf text).
Proof.
  intros H. unfold linesOf. apply Forall_forall. intros line Hin.
  apply filter_In in Hin as [Hin _].
  pose proof (WellFormed_split newline text) as Hs.
  rewrite Forall_forall in Hs. apply Hs; trivial. now apply plain_small.
Qed.

Lemma WellFormed_partsOf (line : jsstring) :
  WellFormed line -> Forall WellFormed (partsOf line).
Proof.
  intros H. unfold partsOf. apply Forall_map.
  eapply Forall_impl; [|apply (WellFormed_split pipe line); trivial].
  - intros p. apply WellFormed_trim.
  - now apply plain_small.
Qed.

Lemma WellFormed_nameOf (parts : list jsstring) :
  Forall WellFormed parts -> WellFormed (nameOf parts).
Proof.
  intros H. unfold nameOf.
  assert (WellFormed unknownRestaurant) as Hd
    by now apply wellFormed_WellFormed.
  destruct parts as [|p ps]; [assumption|]. simpl.
  inversion H; subst.
  pose proof (WellFormed_stripAsterisks _ (WellFormed_stripOrdinal _ H2)) as Hn.
  now destruct (stripAsterisks (stripOrdinal p)).
Qed.

Lemma groundedUri_ungrounded (matched : option GroundingChunk) :
  ungrounded matched <-> groundedUri matched = [].
Proof.
  destruct matched as [c|]; simpl; [|tauto].
  destruct (uriOf (maps c)) as [[|x u]|], (uriOf (web c)) as [[|y v]|];
    simpl; intuition discriminate.
Qed.

Lemma WellFormed_searchQuery (location : GeoLocation) (name : jsstring) :
  WellFormed name -> WellFormed (searchQuery location name).
Proof.
  intros H. unfold searchQuery.
  repeat apply WellFormed_app; trivial; apply WellFormed_lit.
Qed.

Section Records.

Variable toLowerCase : jsstring -> jsstring.
Variable now : nat -> Z.
Variable location : GeoLocation.

(** What a record that was built says about the line it was built from. *)
Lemma restaurantOf_Ok (chunks : list GroundingChunk) (line : jsstring)
    (index : nat) (r : Restaurant) :
  restaurantOf toLowerCase now location chunks line index = Ok r ->
  readsLine r line /\
  mapUriOf toLowerCase location chunks (name r) = Ok (mapUri r) /\
  id r = lit "rest-" ++ ofInteger (Z.of_nat index) ++ lit "-"
           ++ ofInteger (now index).
Proof.
  unfold restaurantOf. intros H.
  destruct (mapUriOf toLowerCase location chunks (nameOf (partsOf line)))
    as [u|] eqn:E; [|discriminate].
  injection H as <-. simpl. unfold readsLine. simpl. now rewrite E.
Qed.

Lemma mapUriOf_Ok (chunks : list GroundingChunk) (name u : jsstring) :
  mapUriOf toLowerCase location chunks name = Ok u ->
  u <> [] /\
  (ungrounded (matchedChunk toLowerCase chunks name) ->
   exists encoded,
     encodeURIComponent (searchQuery location name) = Ok encoded /\
     u = searchLink ++ encoded).
Proof.
  unfold mapUriOf. intros H.
  destruct (groundedUri (matchedChunk toLowerCase chunks name))
    as [|x g] eqn:G; simpl in H.
  - destruct (encodeURIComponent (searchQuery location name)) as [enc|];
      [|discriminate].
    injection H as <-. split; [discriminate|]. intros _. now exists enc.
  - injection H as <-. split; [discriminate|].
    intros U. apply groundedUri_ungrounded in U. congruence.
Qed.

(** A well-formed name always gets a map URI. *)
Lemma mapUriOf_total (chunks : list GroundingChunk) (name : jsstring) :
  WellFormed name ->
  exists u, mapUriOf toLowerCase location chunks name = Ok u.
Proof.
  intros H. unfold mapUriOf.
  destruct (truthy _); [now eexists|].
  destruct (encodeURIComponent_WellFormed _ (WellFormed_searchQuery location _ H))
    as [enc ->].
  now eexists.
Qed.

Lemma restaurantOf_total (chunks : list GroundingChunk) (line : jsstring)
    (index : nat) :
  WellFormed line ->
  exists r, restaurantOf toLowerCase now location chunks line index = Ok r.
Proof.
  intros H. unfold restaurantOf.
  destruct (mapUriOf_total chunks (nameOf (partsOf line))) as [u ->].
  - now apply WellFormed_nameOf, WellFormed_partsOf.
  - now eexists.
Qed.

(** How the promise settles decides what was logged. *)
Lemma fetchRecommendations_Ok (response : GenerateContentResponse)
    (log : list LogEntry) (restaurants : list Restaurant) :
  fetchRecommendations toLowerCase now location (Resolves response)
    = (log, Ok restaurants) ->
  log = [] /\
  restaurantsOf toLowerCase now location response = Ok restaurants.
Proof.
  unfold fetchRecommendations.
  destruct (restaurantsOf toLowerCase now location response);
    intros [= <- <-]; now split.
Qed.

Lemma fetchRecommendations_total (response : GenerateContentResponse) :
  WellFormed (textOf response) ->
  exists restaurants,
    fetchRecommendations toLowerCase now location (Resolves response)
      = ([], Ok restaurants).
Proof.
  intros H. unfold fetchRecommendations, restaurantsOf.
  destruct (mapIndexed_total
              (restaurantOf toLowerCase now location (chunksOf response))
              (firstn 5 (linesOf (textOf response)))) with (i := 0%nat)
    as [rs ->]; [|now eexists].
  apply Forall_forall. intros line Hin k.
  apply restaurantOf_total.
  pose proof (WellFormed_linesOf _ H) as Hl. rewrite Forall_forall in Hl.
  apply Hl. eapply In_firstn. eassumption.
Qed.

(** Once the response has arrived the call can only fail with URIError, and
    only on a text that is not well-formed. *)
Lemma fetchRecommendations_Throw (response : GenerateContentResponse)
    (log : list LogEntry) (e : exn) :
  fetchRecommendations toLowerCase now location (Resolves response)
    = (log, Throw e) ->
  e = URIError /\ wellFormed (textOf response) = false.
Proof.
  intros H. split.
  - unfold fetchRecommendations in H.
    destruct (restaurantsOf toLowerCase now location response) as [rs|e']
      eqn:R; [discriminate|].
    injection H as _ ->. unfold restaurantsOf in R.
    apply mapIndexed_Throw in R as (line & k & _ & R).
    unfold restaurantOf, mapUriOf in R.
    destruct (truthy _); [discriminate|].
    destruct (encodeURIComponent _) eqn:E; [discriminate|].
    injection R as ->. now apply encodeURIComponent_Throw in E.
  - destruct (wellFormed (textOf response)) eqn:W; [|reflexivity].
    apply wellFormed_WellFormed in W.
    destruct (fetchRecommendations_total response W) as [rs E].
    congruence.
Qed.

Lemma restaurantsOf_Ok (response : GenerateContentResponse)
    (restaurants : list Restaurant) :
  restaurantsOf toLowerCase now location response = Ok restaurants ->
  Forall2 readsLine restaurants (firstn 5 (linesOf (textOf response))).
Proof.
  unfold restaurantsOf. intros H. apply mapIndexed_Forall2 in H.
  eapply Forall2_impl; [|exact H].
  intros r line (k & Hr). now apply restaurantOf_Ok in Hr.
Qed.

(** Blanking the identifier forgets the clock. *)
Lemma restaurantOf_withoutId (now' : nat -> Z) (chunks : list GroundingChunk)
    (line : jsstring) (index : nat) :
  fmap withoutId (restaurantOf toLowerCase now location chunks line index)
  = fmap withoutId (restaurantOf toLowerCase now' location chunks line index).
Proof.
  unfold restaurantOf.
  now destruct (mapUriOf toLowerCase location chunks (nameOf (partsOf line))).
Qed.

End Records.

Lemma nth_error_partsOf (line : jsstring) (k : nat) :
  nth_error (partsOf line) k = option_map trim (nth_error (split pipe line) k).
Proof. unfold partsOf. apply nth_error_map. Qed.

Lemma trim_blank (s : jsstring) :
  Forall (fun c => isWhiteSpace c = true) s -> trim s = [].
Proof.
  intros H. unfold trim, trimStart.
  assert (trimEnd s = []) as ->; [|reflexivity].
  induction H as [|c r Hc _ IH]; simpl; [reflexivity|]. now rewrite IH, Hc.
Qed.

Lemma stripOrdinal_prefix (ds rest : jsstring) :
  ds <> [] -> Forall (fun c => isDigit c = true) ds ->
  stripOrdinal (ds ++ 0x2E :: rest) = skipWhile isWhiteSpace rest.
Proof.
  intros Hne Hds. unfold stripOrdinal.
  rewrite (skipWhile_app isDigit ds (0x2E :: rest) Hds).
  destruct ds as [|d ds']; [contradiction|].
  inversion Hds; subst. simpl. now rewrite H1.
Qed.

End FetchFacts.

(** ** More about the string methods *)

Module StringLaws.
Import JSFacts.

(** Splitting works separator by separator. *)
Lemma split_app_sep (sep : Z) (a b : jsstring) :
  split sep (a ++ sep :: b) = split sep a ++ split sep b.
Proof.
  induction a as [|c a IH]; simpl.
  - now rewrite Z.eqb_refl.
  - destruct (c =? sep); [now rewrite IH|].
    rewrite IH. destruct (split_cons sep a) as (p & ps & ->). reflexivity.
Qed.

Lemma split_plain (sep : Z) (s : jsstring) :
  ~ In sep s -> split sep s = [s].
Proof.
  induction s as [|c r IH]; intros H; simpl; [reflexivity|].
  destruct (Z.eqb_spec c sep) as [->|_]; [elim H; now left|].
  rewrite IH; [reflexivity|]. intros Hin. apply H. now right.
Qed.

(** A piece holds no separator and nothing the string did not hold. *)
Lemma split_In (sep : Z) (s p : jsstring) :
  In p (split sep s) -> ~ In sep p /\ incl p s.
Proof.
  revert p. induction s as [|c r IH]; intros p; simpl.
  - intros [<-|[]]. split; [tauto|apply incl_refl].
  - destruct (Z.eqb_spec c sep) as [->|Hc].
    + intros [<-|H]; [split; [tauto|apply incl_nil_l]|].
      destruct (IH p H) as [Hs Hi]. split; [assumption|now apply incl_tl].
    + destruct (split_cons sep r) as (q & qs & E). rewrite E in *.
      intros [<-|H].
      * destruct (IH q (or_introl eq_refl)) as [Hs Hi]. split.
        -- intros [Heq|Hin]; [congruence|tauto].
        -- intros x [<-|Hx]; [now left|right; now apply Hi].
      * destruct (IH p (or_intror H)) as [Hs Hi].
        split; [assumption|now apply incl_tl].
Qed.

Lemma skipWhile_incl (p : Z -> bool) (s : jsstring) :
  incl (skipWhile p s) s.
Proof.
  induction s as [|c r IH]; simpl; [apply incl_refl|].
  destruct (p c); [now apply incl_tl|apply incl_refl].
Qed.

Lemma trimEnd_incl (s : jsstring) : incl (trimEnd s) s.
Proof.
  induction s as [|c r IH]; simpl; [apply incl_refl|].
  destruct (trimEnd r) as [|t ts].
  - destruct (isWhiteSpace c); [apply incl_nil_l|].
    intros x [<-|[]]. now left.
  - intros x [<-|Hx]; [now left|right; now apply IH].
Qed.

Lemma trim_incl (s : jsstring) : incl (trim s) s.
Proof.
  unfold trim, trimStart.
  eapply incl_tran; [apply skipWhile_incl|apply trimEnd_incl].
Qed.

Lemma stripOrdinal_incl (s : jsstring) : incl (stripOrdinal s) s.
Proof.
  unfold stripOrdinal. destruct s as [|d r]; [apply incl_refl|].
  destruct (isDigit d); [|apply incl_refl].
  pose proof (skipWhile_incl isDigit (d :: r)) as H.
  destruct (skipWhile isDigit (d :: r)) as [|dot r']; [apply incl_refl|].
  destruct (dot =? 0x2E); [|apply incl_refl].
  eapply incl_tran; [apply skipWhile_incl|].
  intros x Hx. apply H. now right.
Qed.

Lemma stripAsterisks_incl (s : jsstring) : incl (stripAsterisks s) s.
Proof. unfold stripAsterisks. apply incl_filter. Qed.

(** What [trimEnd] returns has no white space left at its end. *)
Lemma trimEnd_idem (s : jsstring) : trimEnd (trimEnd s) = trimEnd s.
Proof.
  induction s as [|c r IH]; simpl; [reflexivity|].
  destruct (trimEnd r) as [|t ts] eqn:E.
  - destruct (isWhiteSpace c) eqn:W; simpl; [reflexivity|now rewrite W].
  - cbn [trimEnd] in *. now rewrite IH.
Qed.

Lemma trimEnd_skipWhile (p : Z -> bool) (s : jsstring) :
  trimEnd s = s -> trimEnd (skipWhile p s) = skipWhile p s.
Proof.
  induction s as [|c r IH]; intros H; simpl; [reflexivity|].
  destruct (p c); [|assumption].
  apply IH. simpl in H. destruct (trimEnd r) as [|t ts].
  - destruct (isWhiteSpace c); [discriminate|]. now injection H as <-.
  - now injection H.
Qed.

Lemma skipWhile_idem (p : Z -> bool) (s : jsstring) :
  skipWhile p (skipWhile p s) = skipWhile p s.
Proof.
  induction s as [|c r IH]; simpl; [reflexivity|].
  destruct (p c) eqn:E; [assumption|]. simpl. now rewrite E.
Qed.

(** Trimming twice is trimming once. *)
Lemma trim_idem (s : jsstring) : trim (trim s) = trim s.
Proof.
  unfold trim, trimStart.
  rewrite (trimEnd_skipWhile isWhiteSpace (trimEnd s) (trimEnd_idem s)).
  apply skipWhile_idem.
Qed.

Lemma trimEnd_app (a b : jsstring) :
  trimEnd (a ++ b)
  = match trimEnd b with
    | [] => trimEnd a
    | t :: ts => a ++ t :: ts
    end.
Proof.
  induction a as [|c a IH]; simpl.
  - now destruct (trimEnd b).
  - rewrite IH. destruct (trimEnd b) as [|t ts]; [reflexivity|].
    now destruct (a ++ t :: ts) eqn:E; [destruct a; discriminate|].
Qed.

Lemma trimEnd_blank (w : jsstring) :
  Forall (fun c => isWhiteSpace c = true) w -> trimEnd w = [].
Proof.
  induction 1 as [|c r Hc _ IH]; simpl; [reflexivity|]. now rewrite IH, Hc.
Qed.

(** White space around a field does not count. *)
Lemma trim_padding (w1 s w2 : jsstring) :
  Forall (fun c => isWhiteSpace c = true) w1 ->
  Forall (fun c => isWhiteSpace c = true) w2 ->
  trim (w1 ++ s ++ w2) = trim s.
Proof.
  intros H1 H2. unfold trim, trimStart.
  rewrite trimEnd_app, (trimEnd_app s w2), (trimEnd_blank w2 H2).
  destruct (trimEnd s) as [|t ts].
  - now rewrite (trimEnd_blank w1 H1).
  - now apply skipWhile_app.
Qed.

End StringLaws.

(** ** What percent-encoding gives *)

Module UriSafety.
Import JSFacts.

Lemma lor_below (a b : Z) :
  0 <= a -> 0 <= b -> 0 <= Z.lor a b <= a + b.
Proof.
  intros Ha Hb. split; [now apply Z.lor_nonneg|].
  pose proof (Z.add_lor_land a b) as E.
  assert (0 <= Z.land a b) by (apply Z.land_nonneg; now left). lia.
Qed.

Lemma low_bits (a : Z) : 0 <= Z.land a 0x3F < 64.
Proof.
  change 0x3F with (Z.ones 6). rewrite Z.land_ones by lia.
  apply Z.mod_pos_bound. reflexivity.
Qed.

Lemma shiftr_range (a n : Z) :
  0 <= n -> 0 <= a -> 0 <= Z.shiftr a n <= a / 2 ^ n.
Proof.
  intros Hn Ha. rewrite Z.shiftr_div_pow2 by assumption.
  split; [|lia]. apply Z.div_pos; [assumption|]. now apply Z.pow_pos_nonneg.
Qed.

Lemma hexDigit_safe (n : Z) :
  0 <= n < 16 -> isUnescaped (hexDigit n) = true.
Proof.
  intros H. unfold hexDigit. destruct (n <? 10) eqn:E; unfold isUnescaped; lia.
Qed.

Lemma percent_safe (octet : Z) :
  0 <= octet < 256 -> Forall (fun c => isUriSafe c = true) (percent octet).
Proof.
  intros H. unfold percent, isUriSafe.
  repeat constructor.
  - apply orb_true_iff. left. apply hexDigit_safe.
    rewrite Z.shiftr_div_pow2 by lia. change (2 ^ 4) with 16.
    split; [apply Z.div_pos; lia|apply Z.div_lt_upper_bound; lia].
  - apply orb_true_iff. left. apply hexDigit_safe.
    change 0xF with (Z.ones 4). rewrite Z.land_ones by lia.
    apply Z.mod_pos_bound. reflexivity.
Qed.

Lemma continuation_octet (a : Z) : 0 <= Z.lor 0x80 (Z.land a 0x3F) < 256.
Proof.
  pose proof (low_bits a) as L.
  pose proof (lor_below 0x80 (Z.land a 0x3F)). lia.
Qed.

Lemma leading_octet (mark a n bound : Z) :
  0 <= mark -> 0 <= n -> 0 <= a -> a / 2 ^ n <= bound -> mark + bound < 256 ->
  0 <= Z.lor mark (Z.shiftr a n) < 256.
Proof.
  intros Hm Hn Ha Hb Hsum.
  pose proof (shiftr_range a n Hn Ha).
  pose proof (lor_below mark (Z.shiftr a n)). lia.
Qed.

(** The UTF-8 form of a code point is made of octets. *)
Lemma utf8_octets (cp : Z) :
  0 <= cp < 0x110000 -> Forall (fun b => 0 <= b < 256) (utf8 cp).
Proof.
  intros H. unfold utf8.
  destruct (cp <? 0x80) eqn:E1; [repeat constructor; lia|].
  destruct (cp <? 0x800) eqn:E2.
  { repeat first [apply Forall_nil | apply Forall_cons];
      try apply continuation_octet.
    apply (leading_octet 0xC0 cp 6 31); try lia.
    change (2 ^ 6) with 64. assert (cp / 64 < 32); [|lia].
    apply Z.div_lt_upper_bound; lia. }
  destruct (cp <? 0x10000) eqn:E3.
  { repeat first [apply Forall_nil | apply Forall_cons];
      try apply continuation_octet.
    apply (leading_octet 0xE0 cp 12 15); try lia.
    change (2 ^ 12) with 4096. assert (cp / 4096 < 16); [|lia].
    apply Z.div_lt_upper_bound; lia. }
  repeat first [apply Forall_nil | apply Forall_cons];
      try apply continuation_octet.
  apply (leading_octet 0xF0 cp 18 7); try lia.
  change (2 ^ 18) with 262144. assert (cp / 262144 < 8); [|lia].
  apply Z.div_lt_upper_bound; lia.
Qed.

Lemma escape_safe (cp : Z) :
  0 <= cp < 0x110000 -> Forall (fun c => isUriSafe c = true) (escape cp).
Proof.
  intros H. unfold escape. apply Forall_flat_map.
  eapply Forall_impl; [|apply utf8_octets; assumption].
  intros b. apply percent_safe.
Qed.

Lemma codePoint_range (hi lo : Z) :
  isHighSurrogate hi = true -> isLowSurrogate lo = true ->
  0 <= codePoint hi lo < 0x110000.
Proof. unfold isHighSurrogate, isLowSurrogate, codePoint. lia. Qed.

(** Whatever [encodeURIComponent] returns is made of unreserved characters
    and percent signs. *)
Lemma encodeURIComponent_safe (s : jsstring) :
  codeUnits s ->
  forall encoded, encodeURIComponent s = Ok encoded ->
  Forall (fun c => isUriSafe c = true) encoded.
Proof.
  remember (length s) as n eqn:Hn. revert s Hn.
  induction n as [n IH] using lt_wf_ind. intros s Hn Hs encoded.
  destruct s as [|c r]; [intros [= <-]; constructor|]. simpl in Hn.
  inversion Hs as [|c' r' Hc Hr]; subst c' r'.
  assert (forall (pre t enc : jsstring),
    (length t < n)%nat -> codeUnits t ->
    Forall (fun c => isUriSafe c = true) pre ->
    fmap (app pre) (encodeURIComponent t) = Ok enc ->
    Forall (fun c => isUriSafe c = true) enc) as step.
  { intros pre t enc Ht Ct Hpre H.
    destruct (encodeURIComponent t) as [e|] eqn:E; [|discriminate].
    injection H as <-. apply Forall_app. split; [assumption|].
    now apply (IH (length t) Ht t eq_refl Ct). }
  cbn [encodeURIComponent].
  destruct (isUnescaped c) eqn:Uc.
  - intros H. apply (step [c] r); trivial; [lia|].
    repeat constructor. unfold isUriSafe. now rewrite Uc.
  - destruct (isHighSurrogate c) eqn:Hc'.
    + destruct r as [|d r']; [discriminate|].
      destruct (isLowSurrogate d) eqn:Hd; [|discriminate].
      intros H. apply (step (escape (codePoint c d)) r'); trivial.
      * simpl in Hn. lia.
      * now inversion Hr.
      * now apply escape_safe, codePoint_range.
    + destruct (isLowSurrogate c); [discriminate|].
      intros H. apply (step (escape c) r); trivial; [lia|].
      apply escape_safe. lia.
Qed.

End UriSafety.

(** ** More about the records *)

Module RecordFacts.
Import JSFacts Encoding FetchFacts StringLaws.

Lemma filter_none {A : Type} (f : A -> bool) (l : list A) :
  (forall a, In a l -> f a = false) -> filter f l = [].
Proof.
  induction l as [|a l IH]; intros H; simpl; [reflexivity|].
  rewrite (H a) by now left. apply IH. intros b Hb. apply H. now right.
Qed.

Lemma Forall2_firstn {A B : Type} (R : A -> B -> Prop) (n : nat)
    (l : list A) (l' : list B) :
  Forall2 R l l' -> Forall2 R (firstn n l) (firstn n l').
Proof.
  intros H. revert n. induction H; intros [|n]; simpl; constructor; auto.
Qed.

Lemma Forall2_Forall_l {A B : Type} (R : A -> B -> Prop) (l : list A)
    (l' : list B) :
  Forall2 R l l' -> Forall (fun a => exists b, In b l' /\ R a b) l.
Proof.
  induction 1 as [|a b l l' Hab _ IH]; constructor.
  - exists b. split; [now left|assumption].
  - eapply Forall_impl; [|exact IH].
    intros x (y & Hy & Hxy). exists y. split; [now right|assumption].
Qed.

Lemma mapIndexed_nth_inv {A B : Type} (f : A -> nat -> result B)
    (l : list A) (i : nat) (rs : list B) (k : nat) (b : B) :
  mapIndexed f i l = Ok rs -> nth_error rs k = Some b ->
  exists a, nth_error l k = Some a /\ f a (i + k)%nat = Ok b.
Proof.
  intros H Hk. destruct (mapIndexed_nth f l i rs H) as [Hlen Hnth].
  assert (k < length l)%nat as Hlt
    by (rewrite <- Hlen; apply nth_error_Some; congruence).
  destruct (nth_error l k) as [a|] eqn:E;
    [|apply nth_error_None in E; lia].
  destruct (Hnth k a E) as (b' & Hb' & Hf).
  exists a. split; [reflexivity|congruence].
Qed.

Lemma mapIndexed_Forall2_eq {A B : Type} (f : A -> nat -> result B)
    (l l' : list A) :
  Forall2 (fun a a' => forall k, f a k = f a' k) l l' ->
  forall i, mapIndexed f i l = mapIndexed f i l'.
Proof.
  induction 1 as [|a a' l l' Ha _ IH]; intros i; simpl; [reflexivity|].
  now rewrite Ha, IH.
Qed.

(** When a callback can fail in one way only, one element on which it
    fails makes the whole [map] fail that way. *)
Lemma mapIndexed_fails {A B : Type} (f : A -> nat -> result B)
    (l : list A) (e : exn) (a : A) :
  (forall x k e', f x k = Throw e' -> e' = e) ->
  In a l -> (forall k, f a k = Throw e) ->
  forall i, mapIndexed f i l = Throw e.
Proof.
  intros Hone Hin Ha. induction l as [|x l IH]; intros i; [contradiction|].
  simpl. destruct (f x i) as [b|e'] eqn:Fx.
  - destruct Hin as [->|Hin]; [rewrite Ha in Fx; discriminate|].
    simpl. now rewrite (IH Hin).
  - now rewrite (Hone x i e' Fx).
Qed.

Lemma orElse_nonempty (x : option jsstring) (d : jsstring) :
  d <> [] -> orElse x d <> [].
Proof. destruct x as [[|c r]|]; simpl; trivial; discriminate. Qed.

Lemma orElse_cases (x : option jsstring) (d : jsstring) :
  orElse x d = d \/ x = Some (orElse x d).
Proof. destruct x as [[|c r]|]; simpl; auto. Qed.

(** Where the fields of a line come from: a placeholder, or a trimmed piece
    of the line, cleaned up again when it is the name. *)
Lemma field_origin (line : jsstring) (i : nat) :
  (i < 5)%nat ->
  fieldOf i (partsOf line) = defaultOf i \/
  exists piece,
    In piece (split pipe line) /\
    fieldOf i (partsOf line)
    = match i with
      | 0%nat => stripAsterisks (stripOrdinal (trim piece))
      | _ => trim piece
      end.
Proof.
  intros Hi.
  assert (forall k p, nth_error (partsOf line) k = Some p ->
            exists piece, In piece (split pipe line) /\ p = trim piece)
    as origin.
  { intros k p Hk. rewrite nth_error_partsOf in Hk.
    destruct (nth_error (split pipe line) k) as [piece|] eqn:E;
      [|discriminate].
    injection Hk as <-. exists piece. split; [|reflexivity].
    eapply nth_error_In. eassumption. }
  destruct i as [|[|[|[|[|i]]]]]; try lia;
    unfold fieldOf, defaultOf, nameOf, cuisineOf, priceLevelOf, ratingOf,
      descriptionOf.
  - destruct (nth_error (partsOf line) 0) as [p|] eqn:E; [|now left].
    simpl. destruct (origin _ _ E) as (piece & Hin & ->).
    destruct (stripAsterisks (stripOrdinal (trim piece))) eqn:S;
      [now left|right].
    exists piece. now rewrite S.
  - destruct (orElse_cases (nth_error (partsOf line) 1) defaultCuisine)
      as [H|H]; [now left|right].
    destruct (origin _ _ H) as (piece & Hin & E). now exists piece.
  - destruct (orElse_cases (nth_error (partsOf line) 2) defaultPrice)
      as [H|H]; [now left|right].
    destruct (origin _ _ H) as (piece & Hin & E). now exists piece.
  - destruct (orElse_cases (nth_error (partsOf line) 3) defaultRating)
      as [H|H]; [now left|right].
    destruct (origin _ _ H) as (piece & Hin & E). now exists piece.
  - destruct (orElse_cases (nth_error (partsOf line) 4) defaultDescription)
      as [H|H]; [now left|right].
    destruct (origin _ _ H) as (piece & Hin & E). now exists piece.
Qed.

(** Every code unit of a field is one of its line or of a placeholder. *)
Lemma field_incl (line : jsstring) (i : nat) :
  (i < 5)%nat ->
  fieldOf i (partsOf line) = defaultOf i \/
  (incl (fieldOf i (partsOf line)) line /\
   ~ In pipe (fieldOf i (partsOf line))).
Proof.
  intros Hi. destruct (field_origin line i Hi) as [H|(piece & Hin & E)];
    [now left|right].
  apply split_In in Hin as [Hp Hincl].
  assert (incl (fieldOf i (partsOf line)) piece) as Hf.
  { rewrite E. destruct i as [|i]; [|apply trim_incl].
    eapply incl_tran; [apply stripAsterisks_incl|].
    eapply incl_tran; [apply stripOrdinal_incl|apply trim_incl]. }
  split; [eapply incl_tran; eassumption|].
  intros H. apply Hp. now apply Hf.
Qed.

Lemma parsedFields_fieldOf (r : Restaurant) (line : jsstring) :
  readsLine r line ->
  parsedFields r = map (fun i => fieldOf i (partsOf line)) [0; 1; 2; 3; 4]%nat.
Proof.
  unfold readsLine, parsedFields. intros (-> & -> & -> & -> & ->).
  reflexivity.
Qed.

Section Returned.

Variable toLowerCase : jsstring -> jsstring.
Variable now : nat -> Z.
Variable location : GeoLocation.

(** Every returned record was built from a qualifying line of the text. *)
Lemma returned_from_lines (response : GenerateContentResponse)
    (log : list LogEntry) (restaurants : list Restaurant) :
  fetchRecommendations toLowerCase now location (Resolves response)
    = (log, Ok restaurants) ->
  Forall (fun r =>
    exists line index,
      In line (linesOf (textOf response)) /\
      restaurantOf toLowerCase now location (chunksOf response) line index
        = Ok r) restaurants.
Proof.
  intros H. apply fetchRecommendations_Ok in H as [_ H].
  unfold restaurantsOf in H. apply mapIndexed_Forall2 in H.
  apply Forall2_Forall_l in H. eapply Forall_impl; [|exact H].
  intros r (line & Hin & k & Hr). exists line, k.
  split; [now apply In_firstn in Hin|assumption].
Qed.

(** A property of the fields of every line is one of every record. *)
Lemma returned_fields (P : jsstring -> Prop)
    (response : GenerateContentResponse) (log : list LogEntry)
    (restaurants : list Restaurant) :
  (forall line i, In line (linesOf (textOf response)) -> (i < 5)%nat ->
                  P (fieldOf i (partsOf line))) ->
  fetchRecommendations toLowerCase now location (Resolves response)
    = (log, Ok restaurants) ->
  Forall (fun r => Forall P (parsedFields r)) restaurants.
Proof.
  intros HP H. apply returned_from_lines in H.
  eapply Forall_impl; [|exact H].
  intros r (line & k & Hin & Hr). apply restaurantOf_Ok in Hr as (Hr & _).
  rewrite (parsedFields_fieldOf r line Hr).
  repeat constructor; apply HP; trivial; lia.
Qed.

(** Positions and identifiers in a returned list. *)
Lemma returned_ids (response : GenerateContentResponse)
    (log : list LogEntry) (restaurants : list Restaurant) :
  fetchRecommendations toLowerCase now location (Resolves response)
    = (log, Ok restaurants) ->
  (forall k r, nth_error restaurants k = Some r ->
     (k < 5)%nat /\
     id r = lit "rest-" ++ ofInteger (Z.of_nat k) ++ lit "-"
              ++ ofInteger (now k)) /\
  NoDup (map id restaurants).
Proof.
  intros H. apply fetchRecommendations_Ok in H as [_ H].
  unfold restaurantsOf in H.
  assert (forall k r, nth_error restaurants k = Some r ->
     (k < 5)%nat /\
     id r = lit "rest-" ++ ofInteger (Z.of_nat k) ++ lit "-"
              ++ ofInteger (now k)) as ids.
  { intros k r Hk.
    destruct (mapIndexed_nth_inv _ _ _ _ _ _ H Hk) as (line & Hl & Hr).
    apply restaurantOf_Ok in Hr as (_ & _ & Hid). split; [|exact Hid].
    assert (k < length (firstn 5 (linesOf (textOf response))))%nat
      by (apply nth_error_Some; congruence).
    pose proof (firstn_le_length 5 (linesOf (textOf response))). lia. }
  split; [exact ids|].
  apply NoDup_nth_error. intros i j Hi E.
  rewrite length_map in Hi. rewrite !nth_error_map in E.
  destruct (nth_error restaurants i) as [ri|] eqn:Ei;
    [|apply nth_error_None in Ei; lia].
  destruct (nth_error restaurants j) as [rj|] eqn:Ej; [|discriminate].
  injection E as E.
  destruct (ids i ri Ei) as [Hi5 Idi], (ids j rj Ej) as [Hj5 Idj].
  rewrite Idi, Idj in E. apply app_inv_head in E.
  destruct i as [|[|[|[|[|i]]]]]; try lia;
    destruct j as [|[|[|[|[|j]]]]]; try lia;
    trivial; discriminate.
Qed.

Lemma returned_at_most_five (response : GenerateContentResponse)
    (log : list LogEntry) (restaurants : list Restaurant) :
  fetchRecommendations toLowerCase now location (Resolves response)
    = (log, Ok restaurants) ->
  (length restaurants <= 5)%nat.
Proof.
  intros H. apply fetchRecommendations_Ok in H as [_ H].
  apply restaurantsOf_Ok in H. rewrite (Forall2_length H).
  apply firstn_le_length.
Qed.

Lemma returned_mapUri (response : GenerateContentResponse)
    (log : list LogEntry) (restaurants : list Restaurant) :
  fetchRecommendations toLowerCase now location (Resolves response)
    = (log, Ok restaurants) ->
  Forall (fun r => mapUri r <> []) restaurants.
Proof.
  intros H. apply returned_from_lines in H.
  eapply Forall_impl; [|exact H].
  intros r (line & k & _ & Hr).
  apply restaurantOf_Ok in Hr as (_ & Hu & _).
  now apply mapUriOf_Ok in Hu.
Qed.

End Returned.

Lemma codeUnits_lit (s : string) : codeUnits (lit s).
Proof.
  unfold codeUnits, lit. apply Forall_map. apply Forall_forall.
  intros a _. pose proof (N_ascii_bounded a). lia.
Qed.

Lemma codeUnits_nameOf (line : jsstring) :
  codeUnits line -> codeUnits (nameOf (partsOf line)).
Proof.
  intros H. destruct (field_incl line 0) as [E|[Hincl _]]; [lia| |].
  - simpl in E. rewrite E. unfold codeUnits, unknownRestaurant.
    repeat constructor; lia.
  - simpl in Hincl. unfold codeUnits in *. rewrite Forall_forall in *.
    intros c Hc. apply H. now apply Hincl.
Qed.

Lemma codeUnits_searchQuery (location : GeoLocation) (name : jsstring) :
  codeUnits name -> codeUnits (searchQuery location name).
Proof.
  intros H. unfold searchQuery, codeUnits.
  repeat (apply Forall_app; split); trivial; apply codeUnits_lit.
Qed.

(** Encoding goes piece by piece once the first piece is well-formed. *)
Lemma encodeURIComponent_app (a b ea : jsstring) :
  encodeURIComponent a = Ok ea ->
  encodeURIComponent (a ++ b) = fmap (app ea) (encodeURIComponent b).
Proof.
  remember (length a) as n eqn:Hn. revert a ea Hn.
  induction n as [n IH] using lt_wf_ind. intros a ea Hn.
  assert (forall (pre t e : jsstring),
    (length t < n)%nat ->
    fmap (app pre) (encodeURIComponent t) = Ok e ->
    fmap (app pre) (encodeURIComponent (t ++ b))
    = fmap (app e) (encodeURIComponent b)) as step.
  { intros pre t e Ht H.
    destruct (encodeURIComponent t) as [et|] eqn:E; [|discriminate].
    injection H as <-. rewrite (IH (length t) Ht t et eq_refl E).
    destruct (encodeURIComponent b); simpl; [|reflexivity].
    now rewrite app_assoc. }
  destruct a as [|c r]; simpl in Hn.
  - intros [= <-]. simpl. now destruct (encodeURIComponent b).
  - cbn [encodeURIComponent app].
    destruct (isUnescaped c).
    + intros H. apply (step [c] r ea); [lia|exact H].
    + destruct (isHighSurrogate c).
      * destruct r as [|d r']; [discriminate|]. cbn [app].
        destruct (isLowSurrogate d); [|discriminate].
        intros H. apply (step _ r' ea); [simpl in Hn; lia|exact H].
      * destruct (isLowSurrogate c); [discriminate|].
        intros H. apply (step _ r ea); [lia|exact H].
Qed.

(** A string that cannot be encoded cannot be either with more text after
    it, unless that text starts with the low surrogate it was missing. *)
Lemma encodeURIComponent_app_Throw (a b : jsstring) (e : exn) :
  encodeURIComponent a = Throw e ->
  match b with
  | d :: _ => isLowSurrogate d = false
  | [] => True
  end ->
  encodeURIComponent (a ++ b) = Throw e.
Proof.
  intros Ha Hb. remember (length a) as n eqn:Hn. revert a Hn Ha.
  induction n as [n IH] using lt_wf_ind. intros a Hn.
  assert (forall (f : jsstring -> jsstring) t,
    (length t < n)%nat ->
    fmap f (encodeURIComponent t) = Throw e ->
    fmap f (encodeURIComponent (t ++ b)) = Throw e) as step.
  { intros f t Ht H.
    destruct (encodeURIComponent t) as [|e'] eqn:E; [discriminate|].
    injection H as ->. now rewrite (IH (length t) Ht t eq_refl E). }
  destruct a as [|c r]; [discriminate|]. simpl in Hn.
  cbn [encodeURIComponent app].
  destruct (isUnescaped c).
  - intros H. apply step; [lia|exact H].
  - destruct (isHighSurrogate c).
    + destruct r as [|d r']; cbn [app].
      * intros H. destruct b as [|d b']; [exact H|]. now rewrite Hb.
      * destruct (isLowSurrogate d); [|trivial].
        intros H. apply step; [simpl in Hn; lia|exact H].
    + destruct (isLowSurrogate c); [trivial|].
      intros H. apply step; [lia|exact H].
Qed.

Lemma encodeURIComponent_Ok (s encoded : jsstring) :
  encodeURIComponent s = Ok encoded -> wellFormed s = true.
Proof.
  intros H. destruct (wellFormed s) eqn:W; [reflexivity|].
  exfalso. revert encoded H.
  remember (length s) as n eqn:Hn. revert s Hn W.
  induction n as [n IH] using lt_wf_ind. intros s Hn W encoded.
  destruct s as [|c r]; [discriminate|]. simpl in Hn.
  assert (forall (f : jsstring -> jsstring) t out,
    (length t < n)%nat -> wellFormed t = false ->
    fmap f (encodeURIComponent t) = Ok out -> False) as step.
  { intros f t out Ht Wt H.
    destruct (encodeURIComponent t) as [et|] eqn:E; [|discriminate].
    exact (IH (length t) Ht t eq_refl Wt et E). }
  cbn [encodeURIComponent wellFormed] in *.
  destruct (isHighSurrogate c) eqn:Hc.
  - rewrite (surrogate_escaped c) by now left.
    destruct r as [|d r']; [discriminate|].
    destruct (isLowSurrogate d); [|discriminate].
    intros H. refine (step _ r' encoded _ _ H); [simpl in Hn; lia|].
    exact W.
  - destruct (isLowSurrogate c) eqn:Lc.
    + rewrite (surrogate_escaped c) by now right. discriminate.
    + destruct (isUnescaped c); intros H;
        refine (step _ r encoded _ _ H); trivial; lia.
Qed.

Lemma encodeURIComponent_unescaped (s : jsstring) :
  Forall (fun c => isUnescaped c = true) s -> encodeURIComponent s = Ok s.
Proof.
  induction 1 as [|c r Hc _ IH]; simpl; [reflexivity|].
  now rewrite Hc, IH.
Qed.

Lemma linesOf_app (a b : jsstring) :
  linesOf (a ++ newline :: b) = linesOf a ++ linesOf b.
Proof. unfold linesOf. now rewrite split_app_sep, filter_app. Qed.

Lemma linesOf_no_pipe (s : jsstring) : ~ In pipe s -> linesOf s = [].
Proof.
  intros H. unfold linesOf. apply filter_none. intros line Hin.
  apply split_In in Hin as [_ Hincl].
  destruct (includes line [pipe]) eqn:E; [|reflexivity].
  apply includes_unit in E. elim H. now apply Hincl.
Qed.

(** One more code unit at the end of a string is one more at the end of a
    piece. *)
Lemma split_snoc (sep c : Z) (l : jsstring) :
  c <> sep ->
  Forall2 (fun p' p => p' = p \/ p' = p ++ [c])
    (split sep (l ++ [c])) (split sep l).
Proof.
  intros Hc. induction l as [|x l IH]; simpl.
  - destruct (Z.eqb_spec c sep); [contradiction|].
    constructor; [now right|constructor].
  - destruct (x =? sep).
    + constructor; [now left|assumption].
    + destruct (split_cons sep (l ++ [c])) as (p' & ps' & E').
      destruct (split_cons sep l) as (q & qs & E). rewrite E, E' in *.
      inversion IH as [|? ? ? ? [->| ->] Hrest]; subst;
        constructor; auto.
Qed.

Lemma partsOf_snoc (c : Z) (line : jsstring) :
  isWhiteSpace c = true -> partsOf (line ++ [c]) = partsOf line.
Proof.
  intros Hw. unfold partsOf.
  assert (c <> pipe) as Hc by (intros ->; discriminate).
  pose proof (split_snoc pipe c line Hc) as H.
  induction H as [|p' p ps' ps [->| ->] _ IH]; simpl; [reflexivity| |];
    rewrite IH; [reflexivity|].
  f_equal. apply (trim_padding [] p [c]); repeat constructor. exact Hw.
Qed.

(** The lines of a text with carriage returns are those of the text, some
    with a carriage return at their end. *)
Lemma split_withCarriageReturns (s : jsstring) :
  Forall2 (fun l' l => l' = l \/ l' = l ++ [0x0D])
    (split newline (withCarriageReturns s)) (split newline s).
Proof.
  induction s as [|c r IH]; simpl.
  - constructor; [now left|constructor].
  - destruct (c =? newline) eqn:E.
    + cbn [split]. change (0x0D =? newline) with false.
      rewrite Z.eqb_refl. constructor; [now right|assumption].
    + cbn [split]. rewrite E.
      destruct (split_cons newline (withCarriageReturns r))
        as (p' & ps' & E').
      destruct (split_cons newline r) as (q & qs & Eq).
      rewrite E', Eq in *.
      inversion IH as [|? ? ? ? [->| ->] Hrest]; subst; constructor; auto.
Qed.

Lemma Forall2_filter {A : Type} (R : A -> A -> Prop) (f : A -> bool)
    (l' l : list A) :
  (forall a' a, R a' a -> f a' = f a) ->
  Forall2 R l' l -> Forall2 R (filter f l') (filter f l).
Proof.
  intros Hf. induction 1 as [|a' a l' l Ha _ IH]; simpl; [constructor|].
  rewrite (Hf a' a Ha). destruct (f a); [now constructor|assumption].
Qed.

Lemma linesOf_withCarriageReturns (s : jsstring) :
  Forall2 (fun l' l => l' = l \/ l' = l ++ [0x0D])
    (linesOf (withCarriageReturns s)) (linesOf s).
Proof.
  unfold linesOf. apply Forall2_filter; [|apply split_withCarriageReturns].
  intros l' l [->| ->]; [reflexivity|].
  apply eq_iff_eq_true. rewrite !includes_unit, in_app_iff. simpl.
  split; [intros [H|[H|[]]]; [assumption|discriminate]|auto].
Qed.

Lemma textOf_respond (text : jsstring) (chunks : list GroundingChunk) :
  textOf (respond text chunks) = text.
Proof. now destruct text. Qed.

Lemma chunksOf_noGrounding (response : GenerateContentResponse) :
  noGrounding response -> chunksOf response = [].
Proof.
  unfold noGrounding, chunksOf.
  intros [->|[->|(cand & others & -> & [->|(m & -> & [->| ->])])]];
    reflexivity.
Qed.

(** Two numbers that print alike are the same number. *)
Lemma digits_range (u : Decimal.uint) :
  Forall (fun c => 0x30 <= c <= 0x39) (digits u).
Proof. induction u; simpl; constructor; trivial; lia. Qed.

Lemma digits_inj (u v : Decimal.uint) : digits u = digits v -> u = v.
Proof.
  revert v. induction u; intros v H; destruct v; simpl in H;
    try discriminate; try reflexivity;
    injection H as H; f_equal; now apply IHu.
Qed.

Lemma ofInteger_inj (n m : Z) : ofInteger n = ofInteger m -> n = m.
Proof.
  unfold ofInteger. intros H.
  rewrite <- (DecimalZ.of_to n), <- (DecimalZ.of_to m).
  destruct (Z.to_int n) as [u|u], (Z.to_int m) as [v|v].
  - now rewrite (digits_inj u v H).
  - pose proof (digits_range u) as R. rewrite H in R.
    inversion R; subst. lia.
  - pose proof (digits_range v) as R. rewrite <- H in R.
    inversion R; subst. lia.
  - injection H as H. now rewrite (digits_inj u v H).
Qed.

Lemma identifier_inj (k : nat) (t t' : Z) :
  lit "rest-" ++ ofInteger (Z.of_nat k) ++ lit "-" ++ ofInteger t
  = lit "rest-" ++ ofInteger (Z.of_nat k) ++ lit "-" ++ ofInteger t' ->
  t = t'.
Proof.
  intros H. apply app_inv_head in H. apply app_inv_head in H.
  apply app_inv_head in H. now apply ofInteger_inj.
Qed.

Lemma line_no_newline (text line : jsstring) :
  In line (linesOf text) -> ~ In newline line /\ incl line text.
Proof.
  unfold linesOf. intros H. apply filter_In in H as [H _].
  now apply split_In in H.
Qed.

End RecordFacts.

(** ** Encoding and decoding *)

Module PercentFacts.
Import JSFacts UriSafety.

(** A test that holds of the first [n] numbers holds below [n]. *)
Lemma forallb_below (n : nat) (f : Z -> bool) :
  forallb f (map Z.of_nat (seq 0 n)) = true ->
  forall y, 0 <= y < Z.of_nat n -> f y = true.
Proof.
  intros H y Hy. rewrite forallb_forall in H. apply H.
  rewrite <- (Z2Nat.id y) by lia. apply in_map. apply in_seq. lia.
Qed.

Lemma lor_continuation (y : Z) : 0 <= y < 64 -> Z.lor 0x80 y = 0x80 + y.
Proof.
  intros H. apply Z.eqb_eq.
  apply (forallb_below 64 (fun y => Z.lor 0x80 y =? 0x80 + y));
    [reflexivity|assumption].
Qed.

Lemma lor_two (y : Z) : 0 <= y < 32 -> Z.lor 0xC0 y = 0xC0 + y.
Proof.
  intros H. apply Z.eqb_eq.
  apply (forallb_below 32 (fun y => Z.lor 0xC0 y =? 0xC0 + y));
    [reflexivity|assumption].
Qed.

Lemma lor_three (y : Z) : 0 <= y < 16 -> Z.lor 0xE0 y = 0xE0 + y.
Proof.
  intros H. apply Z.eqb_eq.
  apply (forallb_below 16 (fun y => Z.lor 0xE0 y =? 0xE0 + y));
    [reflexivity|assumption].
Qed.

Lemma lor_four (y : Z) : 0 <= y < 8 -> Z.lor 0xF0 y = 0xF0 + y.
Proof.
  intros H. apply Z.eqb_eq.
  apply (forallb_below 8 (fun y => Z.lor 0xF0 y =? 0xF0 + y));
    [reflexivity|assumption].
Qed.

Lemma land_low (a : Z) : Z.land a 0x3F = a mod 64.
Proof. change 0x3F with (Z.ones 6). now rewrite Z.land_ones by lia. Qed.

(** The octets of [utf8], with division and remainder. *)
Lemma utf8_arithmetic (cp : Z) :
  0 <= cp < 0x110000 ->
  utf8 cp
  = if cp <? 0x80 then [cp]
    else if cp <? 0x800 then [0xC0 + cp / 64; 0x80 + cp mod 64]
    else if cp <? 0x10000 then
      [0xE0 + cp / 4096; 0x80 + (cp / 64) mod 64; 0x80 + cp mod 64]
    else
      [0xF0 + cp / 262144; 0x80 + (cp / 4096) mod 64;
       0x80 + (cp / 64) mod 64; 0x80 + cp mod 64].
Proof.
  intros H. unfold utf8.
  rewrite !land_low, !Z.shiftr_div_pow2 by lia.
  change (2 ^ 6) with 64. change (2 ^ 12) with 4096.
  change (2 ^ 18) with 262144.
  assert (forall a, 0 <= a mod 64 < 64) as Hm
    by (intros a; apply Z.mod_pos_bound; lia).
  rewrite !lor_continuation by apply Hm.
  destruct (cp <? 0x80) eqn:E1; [reflexivity|].
  destruct (cp <? 0x800) eqn:E2.
  { rewrite lor_two; [reflexivity|]. Z.div_mod_to_equations. lia. }
  destruct (cp <? 0x10000) eqn:E3.
  { rewrite lor_three; [reflexivity|]. Z.div_mod_to_equations. lia. }
  rewrite lor_four; [reflexivity|]. Z.div_mod_to_equations. lia.
Qed.

Lemma hexValue_hexDigit (n : Z) :
  0 <= n < 16 -> Percent.hexValue (hexDigit n) = Some n.
Proof.
  intros H. unfold hexDigit, Percent.hexValue.
  destruct (n <? 10) eqn:E.
  - assert ((0x30 <=? 0x30 + n) && (0x30 + n <=? 0x39) = true) as -> by lia.
    f_equal. lia.
  - assert ((0x30 <=? 0x41 + (n - 10)) && (0x41 + (n - 10) <=? 0x39) = false)
      as -> by lia.
    assert ((0x41 <=? 0x41 + (n - 10)) && (0x41 + (n - 10) <=? 0x46) = true)
      as -> by lia.
    f_equal. lia.
Qed.

Lemma octets_percent (b : Z) (rest : jsstring) :
  0 <= b < 256 ->
  Percent.octets (percent b ++ rest)
  = option_map (cons b) (Percent.octets rest).
Proof.
  intros H. unfold percent. cbn [app Percent.octets].
  rewrite Z.eqb_refl.
  assert (Z.shiftr b 4 = b / 16) as ->
    by (rewrite Z.shiftr_div_pow2 by lia; reflexivity).
  assert (Z.land b 0xF = b mod 16) as ->
    by (change 0xF with (Z.ones 4); now rewrite Z.land_ones by lia).
  rewrite !hexValue_hexDigit by (Z.div_mod_to_equations; lia).
  destruct (Percent.octets rest); [|reflexivity]. cbn [option_map].
  do 2 f_equal. Z.div_mod_to_equations. lia.
Qed.

Lemma octets_escape (bs : list Z) (rest : jsstring) :
  Forall (fun b => 0 <= b < 256) bs ->
  Percent.octets (flat_map percent bs ++ rest)
  = option_map (app bs) (Percent.octets rest).
Proof.
  induction 1 as [|b bs Hb _ IH]; cbn [flat_map].
  - simpl. now destruct (Percent.octets rest).
  - rewrite <- app_assoc, octets_percent, IH by assumption.
    now destruct (Percent.octets rest).
Qed.

Lemma octets_unescaped (c : Z) (rest : jsstring) :
  isUnescaped c = true ->
  Percent.octets (c :: rest) = option_map (cons c) (Percent.octets rest).
Proof.
  intros H. cbn [Percent.octets].
  assert ((c =? 0x25) = false) as -> by (unfold isUnescaped in H; lia).
  assert ((0 <=? c) && (c <? 0x80) = true) as ->
    by (unfold isUnescaped in H; lia).
  reflexivity.
Qed.

(** Reading the UTF-8 form of a code point gives the code point back. *)
Lemma codePoints_utf8 (cp : Z) (rest : list Z) :
  0 <= cp < 0x110000 ->
  Percent.codePoints (utf8 cp ++ rest)
  = option_map (cons cp) (Percent.codePoints rest).
Proof.
  intros H. rewrite utf8_arithmetic by assumption.
  destruct (cp <? 0x80) eqn:E1.
  { cbn [app Percent.codePoints]. now rewrite E1. }
  destruct (cp <? 0x800) eqn:E2.
  { cbn [app Percent.codePoints]. unfold Percent.isContinuation.
    assert ((0xC0 + cp / 64 <? 0x80) = false) as ->
      by (Z.div_mod_to_equations; lia).
    assert ((0xC0 + cp / 64 <? 0xC0) = false) as ->
      by (Z.div_mod_to_equations; lia).
    assert ((0xC0 + cp / 64 <? 0xE0) = true) as ->
      by (Z.div_mod_to_equations; lia).
    assert ((0x80 <=? 0x80 + cp mod 64) && (0x80 + cp mod 64 <? 0xC0) = true)
      as -> by (Z.div_mod_to_equations; lia).
    replace ((0xC0 + cp / 64 - 0xC0) * 64 + (0x80 + cp mod 64 - 0x80))
      with cp by (Z.div_mod_to_equations; lia).
    reflexivity. }
  destruct (cp <? 0x10000) eqn:E3.
  { cbn [app Percent.codePoints]. unfold Percent.isContinuation.
    assert ((0xE0 + cp / 4096 <? 0x80) = false) as ->
      by (Z.div_mod_to_equations; lia).
    assert ((0xE0 + cp / 4096 <? 0xC0) = false) as ->
      by (Z.div_mod_to_equations; lia).
    assert ((0xE0 + cp / 4096 <? 0xE0) = false) as ->
      by (Z.div_mod_to_equations; lia).
    assert ((0xE0 + cp / 4096 <? 0xF0) = true) as ->
      by (Z.div_mod_to_equations; lia).
    assert ((0x80 <=? 0x80 + (cp / 64) mod 64)
            && (0x80 + (cp / 64) mod 64 <? 0xC0) = true)
      as -> by (Z.div_mod_to_equations; lia).
    assert ((0x80 <=? 0x80 + cp mod 64) && (0x80 + cp mod 64 <? 0xC0) = true)
      as -> by (Z.div_mod_to_equations; lia).
    replace ((0xE0 + cp / 4096 - 0xE0) * 4096
             + (0x80 + (cp / 64) mod 64 - 0x80) * 64
             + (0x80 + cp mod 64 - 0x80))
      with cp by (Z.div_mod_to_equations; lia).
    reflexivity. }
  cbn [app Percent.codePoints]. unfold Percent.isContinuation.
  assert ((0xF0 + cp / 262144 <? 0x80) = false) as ->
    by (Z.div_mod_to_equations; lia).
  assert ((0xF0 + cp / 262144 <? 0xC0) = false) as ->
    by (Z.div_mod_to_equations; lia).
  assert ((0xF0 + cp / 262144 <? 0xE0) = false) as ->
    by (Z.div_mod_to_equations; lia).
  assert ((0xF0 + cp / 262144 <? 0xF0) = false) as ->
    by (Z.div_mod_to_equations; lia).
  assert ((0xF0 + cp / 262144 <? 0xF8) = true) as ->
    by (Z.div_mod_to_equations; lia).
  assert ((0x80 <=? 0x80 + (cp / 4096) mod 64)
          && (0x80 + (cp / 4096) mod 64 <? 0xC0) = true)
    as -> by (Z.div_mod_to_equations; lia).
  assert ((0x80 <=? 0x80 + (cp / 64) mod 64)
          && (0x80 + (cp / 64) mod 64 <? 0xC0) = true)
    as -> by (Z.div_mod_to_equations; lia).
  assert ((0x80 <=? 0x80 + cp mod 64) && (0x80 + cp mod 64 <? 0xC0) = true)
    as -> by (Z.div_mod_to_equations; lia).
  replace ((0xF0 + cp / 262144 - 0xF0) * 262144
           + (0x80 + (cp / 4096) mod 64 - 0x80) * 4096
           + (0x80 + (cp / 64) mod 64 - 0x80) * 64
           + (0x80 + cp mod 64 - 0x80))
    with cp by (Z.div_mod_to_equations; lia).
  reflexivity.
Qed.

Lemma codePoints_app (bs : list Z) (cp : Z) (ds cps : list Z) :
  0 <= cp < 0x110000 ->
  Percent.codePoints ds = Some cps ->
  Percent.codePoints (utf8 cp ++ ds) = Some (cp :: cps).
Proof. intros H E. now rewrite codePoints_utf8, E. Qed.

(** A surrogate pair is the pair of its code point. *)
Lemma codeUnitsOf_pair (hi lo : Z) (cps : list Z) :
  isHighSurrogate hi = true -> isLowSurrogate lo = true ->
  Percent.codeUnitsOf (codePoint hi lo :: cps)
  = hi :: lo :: Percent.codeUnitsOf cps.
Proof.
  intros Hh Hl. unfold isHighSurrogate, isLowSurrogate in *.
  cbn [Percent.codeUnitsOf]. unfold codePoint.
  assert (((hi - 0xD800) * 0x400 + (lo - 0xDC00) + 0x10000 <? 0x10000)
          = false) as -> by lia.
  f_equal; [|f_equal]; Z.div_mod_to_equations; lia.
Qed.

(** What [encodeURIComponent] returns stands for what it was given. *)
Lemma decoded_encodeURIComponent (s encoded : jsstring) :
  codeUnits s ->
  encodeURIComponent s = Ok encoded ->
  Percent.decoded encoded = Some s.
Proof.
  intros Hs H.
  assert (exists bs cps,
            Percent.octets encoded = Some bs /\
            Percent.codePoints bs = Some cps /\
            Percent.codeUnitsOf cps = s) as (bs & cps & Ho & Hc & Hu).
  { revert encoded H. remember (length s) as n eqn:Hn. revert s Hn Hs.
    induction n as [n IH] using lt_wf_ind. intros s Hn Hs encoded.
    destruct s as [|c r]; [intros [= <-]; now exists [], []|].
    simpl in Hn. inversion Hs as [|c' r' Hc Hr]; subst c' r'.
    cbn [encodeURIComponent].
    destruct (isUnescaped c) eqn:Uc.
    - destruct (encodeURIComponent r) as [e|] eqn:E; [|discriminate].
      intros [= <-].
      destruct (IH (length r) ltac:(lia) r eq_refl Hr e E)
        as (bs & cps & Ho & Hc' & Hu).
      exists (c :: bs), (c :: cps). rewrite octets_unescaped, Ho by assumption.
      cbn [Percent.codePoints Percent.codeUnitsOf].
      assert ((c <? 0x80) = true) as -> by (unfold isUnescaped in Uc; lia).
      assert ((c <? 0x10000) = true) as -> by lia.
      rewrite Hc', Hu. now repeat split.
    - destruct (isHighSurrogate c) eqn:Hh.
      + destruct r as [|d r']; [discriminate|].
        destruct (isLowSurrogate d) eqn:Hl; [|discriminate].
        destruct (encodeURIComponent r') as [e|] eqn:E; [|discriminate].
        intros [= <-].
        assert (codeUnits r') as Hr' by now inversion Hr.
        destruct (IH (length r') ltac:(simpl in Hn; lia) r' eq_refl Hr' e E)
          as (bs & cps & Ho & Hc' & Hu).
        pose proof (codePoint_range c d Hh Hl) as Hcp.
        exists (utf8 (codePoint c d) ++ bs), (codePoint c d :: cps).
        unfold escape.
        rewrite octets_escape, Ho by now apply utf8_octets.
        rewrite (codePoints_app bs _ bs cps Hcp Hc').
        rewrite codeUnitsOf_pair, Hu by assumption. now repeat split.
      + destruct (isLowSurrogate c) eqn:Hl; [discriminate|].
        destruct (encodeURIComponent r) as [e|] eqn:E; [|discriminate].
        intros [= <-].
        destruct (IH (length r) ltac:(lia) r eq_refl Hr e E)
          as (bs & cps & Ho & Hc' & Hu).
        exists (utf8 c ++ bs), (c :: cps). unfold escape.
        rewrite octets_escape, Ho by (apply utf8_octets; lia).
        rewrite (codePoints_app bs c bs cps ltac:(lia) Hc').
        cbn [Percent.codeUnitsOf].
        assert ((c <? 0x10000) = true) as -> by lia.
        rewrite Hu. now repeat split. }
  unfold Percent.decoded. rewrite Ho, Hc. cbn [option_map]. now rewrite Hu.
Qed.

(** The unreserved characters and the percent sign, one by one. *)
Lemma isUriSafe_alphabet (c : Z) :
  isUriSafe c = true -> In c Percent.alphabet.
Proof.
  intros H.
  assert (0 <= c < 128) as Hc by (unfold isUriSafe, isUnescaped in H; lia).
  pose proof (forallb_below 128
    (fun c => implb (isUriSafe c) (existsb (Z.eqb c) Percent.alphabet))
    eq_refl c Hc) as Hb.
  cbv beta in Hb. rewrite H in Hb. cbn [implb] in Hb.
  apply existsb_exists in Hb as (x & Hin & Hx).
  apply Z.eqb_eq in Hx. now subst x.
Qed.

End PercentFacts.

(** ** The properties of the specification *)

Import JSFacts Encoding FetchFacts StringLaws UriSafety RecordFacts
  PercentFacts.

(** C1.  Every record [fetchRecommendations] returns has a non-empty
    [mapUri], whatever the response text and the grounding chunks are.  When
    no chunk matches the record's name, or the matched chunk has no usable
    URI, the [mapUri] is the text
    ["https://www.google.com/maps/search/?api=1&query="] followed by what
    [encodeURIComponent] makes of the name, a blank, the latitude, a comma
    and the longitude; for a response text of 16-bit code units that part is
    written with unreserved characters and percent signs only, and read back
    as percent-escaped UTF-8 it is that very query. *)
Theorem mapUri_never_empty (toLowerCase : jsstring -> jsstring)
    (now : nat -> Z) (location : GeoLocation)
    (response : GenerateContentResponse) (log : list LogEntry)
    (restaurants : list Restaurant) :
  fetchRecommendations toLowerCase now location (Resolves response)
    = (log, Ok restaurants) ->
  Forall (fun r =>
    mapUri r <> [] /\
    (ungrounded (matchedChunk toLowerCase (chunksOf response) (name r)) ->
     let query :=
       name r ++ lit " " ++ lit (lat location) ++ lit ","
         ++ lit (lng location) in
     exists encoded,
       mapUri r
       = lit "https://www.google.com/maps/search/?api=1&query=" ++ encoded /\
       encodeURIComponent query = Ok encoded /\
       (codeUnits (textOf response) ->
        Forall (fun c => In c Percent.alphabet) encoded /\
        Percent.decoded encoded = Some query))) restaurants.
Proof.
  intros H. apply returned_from_lines in H.
  eapply Forall_impl; [|exact H].
  intros r (line & k & Hin & Hr).
  apply restaurantOf_Ok in Hr as ((Hname & _) & Hu & _).
  apply mapUriOf_Ok in Hu as [Hne Hu]. split; [assumption|].
  intros Hun query. destruct (Hu Hun) as (enc & Henc & Hmap).
  exists enc. split; [exact Hmap|]. split; [exact Henc|].
  intros Hcu.
  assert (codeUnits query) as Hq.
  { apply (codeUnits_searchQuery location). rewrite Hname.
    apply codeUnits_nameOf. apply line_no_newline in Hin as [_ Hincl].
    unfold codeUnits in *. rewrite Forall_forall in *.
    intros c Hc. apply Hcu. now apply Hincl. }
  split.
  - eapply Forall_impl; [|exact (encodeURIComponent_safe _ Hq _ Henc)].
    intros c. apply isUriSafe_alphabet.
  - exact (decoded_encodeURIComponent _ _ Hq Henc).
Qed.

Lemma mapUri_never_empty_witness :
  exists restaurants,
    fetchRecommendations lowerBasicLatin midnight taipei
      (Resolves (respond sampleLine [])) = ([], Ok restaurants) /\
    map mapUri restaurants
    = [lit "https://www.google.com/maps/search/?api=1&query=%E9%BC%8E%E6%B3%B0%E8%B1%90%2025.033%2C121.5654"] /\
    Forall (fun r =>
      mapUri r <> [] /\
      (ungrounded (matchedChunk lowerBasicLatin
                     (chunksOf (respond sampleLine [])) (name r)) ->
       let query :=
         name r ++ lit " " ++ lit (lat taipei) ++ lit ","
           ++ lit (lng taipei) in
       exists encoded,
         mapUri r
         = lit "https://www.google.com/maps/search/?api=1&query="
             ++ encoded /\
         encodeURIComponent query = Ok encoded /\
         (codeUnits (textOf (respond sampleLine [])) ->
          Forall (fun c => In c Percent.alphabet) encoded /\
          Percent.decoded encoded = Some query))) restaurants.
Proof.
  eexists. split; [vm_compute; reflexivity|]. split; [reflexivity|].
  apply (mapUri_never_empty lowerBasicLatin midnight taipei
           (respond sampleLine []) []).
  vm_compute. reflexivity.
Defined.

(** C2.  A response text with at least 5 qualifying lines should give
    exactly 5 records in the order of the lines.  The code breaks this: on
    five qualifying lines whose names hold an unpaired surrogate and that no
    chunk grounds, the unguarded [encodeURIComponent] of the fallback link
    raises URIError, the [catch] block logs and rethrows it, and the call
    returns no record at all. *)
Lemma five_lines_rejected :
  (5 <= length (linesOf (textOf (respond fiveUnpaired []))))%nat /\
  fetchRecommendations lowerBasicLatin midnight taipei
    (Resolves (respond fiveUnpaired []))
  = ([ConsoleError (lit "Error fetching recommendations:") URIError],
     Throw URIError) /\
  ~ (exists restaurants,
       snd (fetchRecommendations lowerBasicLatin midnight taipei
              (Resolves (respond fiveUnpaired []))) = Ok restaurants /\
       length restaurants = 5%nat).
Proof.
  split; [vm_compute; lia|]. split; [vm_compute; reflexivity|].
  intros (restaurants & H & _). vm_compute in H. discriminate.
Qed.

(** Where that defect does not strike, the code does what C2 says.  The
    qualifying lines are the lines of the response text that contain the
    pipe delimiter, the others being discarded before counting.  When there
    are at least 5 of them, a call that returns returns exactly 5 records,
    which carry the fields of the first 5 qualifying lines in the order of
    the text; the call does return whenever the response text is well-formed
    UTF-16, and when it fails instead, it fails with URIError on a text that
    is not. *)
Theorem five_records_in_order (toLowerCase : jsstring -> jsstring)
    (now : nat -> Z) (location : GeoLocation)
    (response : GenerateContentResponse) :
  (5 <= length (linesOf (textOf response)))%nat ->
  (forall line,
     In line (linesOf (textOf response)) <->
     In line (split newline (textOf response)) /\ In pipe line) /\
  (forall log restaurants,
     fetchRecommendations toLowerCase now location (Resolves response)
       = (log, Ok restaurants) ->
     length restaurants = 5%nat /\
     Forall2 readsLine restaurants (firstn 5 (linesOf (textOf response)))) /\
  (wellFormed (textOf response) = true ->
   exists restaurants,
     fetchRecommendations toLowerCase now location (Resolves response)
       = ([], Ok restaurants) /\
     length restaurants = 5%nat /\
     Forall2 readsLine restaurants (firstn 5 (linesOf (textOf response)))) /\
  (forall log e,
     fetchRecommendations toLowerCase now location (Resolves response)
       = (log, Throw e) ->
     e = URIError /\ wellFormed (textOf response) = false).
Proof.
  intros H5.
  split; [intros line; unfold linesOf;
          now rewrite filter_In, includes_unit|].
  assert (forall log e,
     fetchRecommendations toLowerCase now location (Resolves response)
       = (log, Throw e) ->
     e = URIError /\ wellFormed (textOf response) = false) as failed
    by apply fetchRecommendations_Throw.
  assert (forall log restaurants,
     fetchRecommendations toLowerCase now location (Resolves response)
       = (log, Ok restaurants) ->
     length restaurants = 5%nat /\
     Forall2 readsLine restaurants (firstn 5 (linesOf (textOf response))))
    as returned.
  { intros log rs H. apply fetchRecommendations_Ok in H as [_ H].
    apply restaurantsOf_Ok in H. split; [|assumption].
    rewrite (Forall2_length H). now apply firstn_length_le. }
  split; [exact returned|]. split; [|exact failed].
  intros W. apply wellFormed_WellFormed in W.
  destruct (fetchRecommendations_total toLowerCase now location response W)
    as [rs E].
  exists rs. split; [assumption|]. now apply (returned []).
Qed.

Lemma five_records_in_order_witness :
  exists restaurants,
    fetchRecommendations lowerBasicLatin midnight taipei
      (Resolves (respond sampleText [])) = ([], Ok restaurants) /\
    length restaurants = 5%nat /\
    Forall2 readsLine restaurants
      (firstn 5 (linesOf (textOf (respond sampleText [])))).
Proof.
  assert (5 <= length (linesOf (textOf (respond sampleText []))))%nat as H5
    by (vm_compute; lia).
  destruct (five_records_in_order lowerBasicLatin midnight taipei
              (respond sampleText []) H5) as (_ & _ & H & _).
  apply H. vm_compute. reflexivity.
Defined.

(** C3.  A response text with fewer than 5 qualifying lines should give one
    record per qualifying line.  The code breaks this by the defect that
    breaks C2: one qualifying line with an unpaired surrogate for a name, and
    no chunk to ground it, makes [encodeURIComponent] raise URIError, and the
    call returns no record where there should be one. *)
Lemma one_line_rejected :
  (length (linesOf (textOf (respond unpairedLine []))) < 5)%nat /\
  fetchRecommendations lowerBasicLatin midnight taipei
    (Resolves (respond unpairedLine []))
  = ([ConsoleError (lit "Error fetching recommendations:") URIError],
     Throw URIError) /\
  ~ (exists restaurants,
       snd (fetchRecommendations lowerBasicLatin midnight taipei
              (Resolves (respond unpairedLine []))) = Ok restaurants /\
       length restaurants
         = length (linesOf (textOf (respond unpairedLine [])))).
Proof.
  split; [vm_compute; lia|]. split; [vm_compute; reflexivity|].
  intros (restaurants & H & _). vm_compute in H. discriminate.
Qed.

(** Where that defect does not strike, the code does what C3 says.  When
    the response text has fewer than 5 lines containing the pipe delimiter,
    a call that returns returns exactly one record per qualifying line, in
    order, and never pads the list; the call does return whenever the
    response text is well-formed UTF-16, and when it fails instead, it fails
    with URIError on a text that is not. *)
Theorem one_record_per_line (toLowerCase : jsstring -> jsstring)
    (now : nat -> Z) (location : GeoLocation)
    (response : GenerateContentResponse) :
  (length (linesOf (textOf response)) < 5)%nat ->
  (forall log restaurants,
     fetchRecommendations toLowerCase now location (Resolves response)
       = (log, Ok restaurants) ->
     length restaurants = length (linesOf (textOf response)) /\
     Forall2 readsLine restaurants (linesOf (textOf response))) /\
  (wellFormed (textOf response) = true ->
   exists restaurants,
     fetchRecommendations toLowerCase now location (Resolves response)
       = ([], Ok restaurants) /\
     length restaurants = length (linesOf (textOf response)) /\
     Forall2 readsLine restaurants (linesOf (textOf response))) /\
  (forall log e,
     fetchRecommendations toLowerCase now location (Resolves response)
       = (log, Throw e) ->
     e = URIError /\ wellFormed (textOf response) = false).
Proof.
  intros H5.
  assert (forall log e,
     fetchRecommendations toLowerCase now location (Resolves response)
       = (log, Throw e) ->
     e = URIError /\ wellFormed (textOf response) = false) as failed
    by apply fetchRecommendations_Throw.
  assert (forall log restaurants,
     fetchRecommendations toLowerCase now location (Resolves response)
       = (log, Ok restaurants) ->
     length restaurants = length (linesOf (textOf response)) /\
     Forall2 readsLine restaurants (linesOf (textOf response)))
    as returned.
  { intros log rs H. apply fetchRecommendations_Ok in H as [_ H].
    apply restaurantsOf_Ok in H. rewrite firstn_all2 in H by lia.
    split; [exact (Forall2_length H)|assumption]. }
  split; [exact returned|]. split; [|exact failed].
  intros W. apply wellFormed_WellFormed in W.
  destruct (fetchRecommendations_total toLowerCase now location response W)
    as [rs E].
  exists rs. split; [assumption|]. now apply (returned []).
Qed.

Lemma one_record_per_line_witness :
  exists restaurants,
    fetchRecommendations lowerBasicLatin midnight taipei
      (Resolves (respond shortText [])) = ([], Ok restaurants) /\
    length restaurants = 2%nat /\
    Forall2 readsLine restaurants (linesOf (textOf (respond shortText []))).
Proof.
  assert (length (linesOf (textOf (respond shortText []))) < 5)%nat as H5
    by (vm_compute; lia).
  destruct (one_record_per_line lowerBasicLatin midnight taipei
              (respond shortText []) H5) as (_ & H & _).
  apply H. vm_compute. reflexivity.
Defined.

(** C4.  A qualifying line with fewer than 5 pipe-delimited fields should
    never make the call throw, its absent fields taking their defaults.  The
    code breaks this by the defect that breaks C2 and C3: a line of two
    fields whose name was cut in the middle of an emoji gets its defaults
    for the price, the rating and the description, and then the unguarded
    [encodeURIComponent] of the fallback link raises URIError, so that the
    callback throws and the whole call fails. *)
Lemma short_line_is_rejected :
  In pipe halfEmojiLine /\
  length (split pipe halfEmojiLine) = 2%nat /\
  priceLevelOf (partsOf halfEmojiLine) = defaultPrice /\
  ratingOf (partsOf halfEmojiLine) = defaultRating /\
  descriptionOf (partsOf halfEmojiLine) = defaultDescription /\
  restaurantOf lowerBasicLatin midnight taipei [] halfEmojiLine 0
  = Throw URIError /\
  fetchRecommendations lowerBasicLatin midnight taipei
    (Resolves (respond halfEmojiLine []))
  = ([ConsoleError (lit "Error fetching recommendations:") URIError],
     Throw URIError).
Proof. vm_compute. intuition. Qed.

(** The field parsing itself is as C4 says, for every line: a field the
    line does not reach is [undefined] in [parts] and takes its documented
    default, [defaultCuisine], ["$"], ["N/A"] or [defaultDescription]
    according to its position, and [unknownRestaurant] for the name were
    there no field at all. *)
Theorem missing_fields_take_defaults (line : jsstring) (i : nat) :
  (length (split pipe line) <= i)%nat -> (i < 5)%nat ->
  nth_error (partsOf line) i = None /\
  fieldOf i (partsOf line) = defaultOf i /\
  fieldOf 0 [] = defaultOf 0.
Proof.
  intros Hi H5.
  assert (nth_error (partsOf line) i = None) as E
    by (apply nth_error_None; unfold partsOf; now rewrite length_map).
  pose proof (split_length pipe line) as H1.
  split; [assumption|]. split; [|reflexivity].
  destruct i as [|[|[|[|[|i]]]]]; try lia;
    unfold fieldOf, cuisineOf, priceLevelOf, ratingOf, descriptionOf;
    now rewrite E.
Qed.

Lemma missing_fields_take_defaults_witness :
  nth_error (partsOf (lit "Ramen |  | $ ")) 3 = None /\
  fieldOf 3 (partsOf (lit "Ramen |  | $ ")) = defaultOf 3 /\
  fieldOf 0 [] = defaultOf 0.
Proof.
  apply (missing_fields_take_defaults (lit "Ramen |  | $ ") 3).
  - vm_compute. lia.
  - lia.
Defined.

(** C5.  When the call of the AI service fails, [fetchRecommendations] fails
    with the same error after logging it once, and returns no record; and
    whatever the service does, the call either returns a list having logged
    nothing, or fails having logged the error once: it never hands out part
    of a list. *)
Theorem service_failure_propagates (toLowerCase : jsstring -> jsstring)
    (now : nat -> Z) (location : GeoLocation) :
  (forall error,
     fetchRecommendations toLowerCase now location (Rejects error)
     = ([ConsoleError (lit "Error fetching recommendations:") error],
        Throw error)) /\
  (forall served,
     (exists restaurants,
        fetchRecommendations toLowerCase now location served
        = ([], Ok restaurants)) \/
     (exists error,
        fetchRecommendations toLowerCase now location served
        = ([ConsoleError (lit "Error fetching recommendations:") error],
           Throw error))).
Proof.
  split; [reflexivity|].
  intros served. unfold fetchRecommendations.
  destruct (match served with
            | Resolves response =>
                restaurantsOf toLowerCase now location response
            | Rejects error => Throw error
            end) as [rs|e].
  - left. now exists rs.
  - right. now exists e.
Qed.

(** C6.  For each parsed name, grounding reconciliation takes the first
    chunk of the list whose web title or maps title contains the name once
    both are lower-cased, no chunk before it doing so; and with the single
    chunk [{maps: {title: "Din Tai Fung Taipei", uri: "U1"}}] and the parsed
    name ["din tai fung"], the record's [mapUri] is ["U1"]. *)
Theorem first_matching_chunk (toLowerCase : jsstring -> jsstring) :
  (forall name c,
     mentions toLowerCase name c = true <->
     exists src t,
       (web c = Some src \/ maps c = Some src) /\ title src = Some t /\
       exists pre post, toLowerCase t = pre ++ toLowerCase name ++ post) /\
  (forall chunks name,
     match matchedChunk toLowerCase chunks name with
     | Some c =>
         exists before after,
           chunks = before ++ c :: after /\
           mentions toLowerCase name c = true /\
           Forall (fun b => mentions toLowerCase name b = false) before
     | None => Forall (fun b => mentions toLowerCase name b = false) chunks
     end) /\
  (toLowerCase (lit "Din Tai Fung Taipei") = lit "din tai fung taipei" ->
   toLowerCase (lit "din tai fung") = lit "din tai fung" ->
   forall now location,
   exists r,
     fetchRecommendations toLowerCase now location
       (Resolves (respond lowerCaseLine [taipeiBranch])) = ([], Ok [r]) /\
     name r = lit "din tai fung" /\ mapUri r = lit "U1").
Proof.
  split; [|split].
  - intros name c. unfold mentions, titleIncludes.
    rewrite orb_true_iff. split.
    + intros [H|H].
      * destruct (web c) as [src|]; [|discriminate].
        destruct (title src) as [t|] eqn:T; [|discriminate].
        apply includes_app in H. exists src, t. auto.
      * destruct (maps c) as [src|]; [|discriminate].
        destruct (title src) as [t|] eqn:T; [|discriminate].
        apply includes_app in H. exists src, t. auto.
    + intros (src & t & [-> | ->] & -> & H); apply includes_app in H; auto.
  - intros chunks name. apply find_first.
  - intros Ht Hn now location. eexists. split; [|split].
    + unfold fetchRecommendations, restaurantsOf.
      change (linesOf (textOf (respond lowerCaseLine [taipeiBranch])))
        with [lowerCaseLine].
      change (chunksOf (respond lowerCaseLine [taipeiBranch]))
        with [taipeiBranch].
      cbn [firstn mapIndexed]. unfold restaurantOf.
      change (nameOf (partsOf lowerCaseLine)) with (lit "din tai fung").
      unfold mapUriOf, matchedChunk. cbn [find].
      assert (mentions toLowerCase (lit "din tai fung") taipeiBranch = true)
        as -> by (unfold mentions, titleIncludes, taipeiBranch; simpl;
                  rewrite Ht, Hn; reflexivity).
      reflexivity.
    + reflexivity.
    + reflexivity.
Qed.

Lemma first_matching_chunk_witness :
  exists r,
    fetchRecommendations lowerBasicLatin midnight taipei
      (Resolves (respond lowerCaseLine [taipeiBranch])) = ([], Ok [r]) /\
    name r = lit "din tai fung" /\ mapUri r = lit "U1".
Proof.
  destruct (first_matching_chunk lowerBasicLatin) as (_ & _ & H).
  apply H; reflexivity.
Defined.

(** C7.  When the chunk matched for a line carries a maps URI and a web URI,
    the record's [mapUri] is the maps URI. *)
Theorem maps_uri_wins (toLowerCase : jsstring -> jsstring) (now : nat -> Z)
    (location : GeoLocation) (chunks : list GroundingChunk)
    (line : jsstring) (index : nat) (c : GroundingChunk)
    (mapsUri webUri : jsstring) :
  matchedChunk toLowerCase chunks (nameOf (partsOf line)) = Some c ->
  uriOf (maps c) = Some mapsUri -> mapsUri <> [] ->
  uriOf (web c) = Some webUri ->
  exists r,
    restaurantOf toLowerCase now location chunks line index = Ok r /\
    readsLine r line /\ mapUri r = mapsUri.
Proof.
  intros Hm Hmaps Hne Hweb. unfold restaurantOf, mapUriOf.
  rewrite Hm. unfold groundedUri. rewrite Hmaps.
  destruct mapsUri as [|x u]; [contradiction|]. simpl.
  eexists. split; [reflexivity|]. unfold readsLine. simpl. tauto.
Qed.

Lemma maps_uri_wins_witness :
  exists r,
    restaurantOf lowerBasicLatin midnight taipei [taipeiBranch; bothSources]
      (lit "2. **Sushi Bar** | Japanese | $$$ | 4.0 | Fresh.") 1 = Ok r /\
    readsLine r (lit "2. **Sushi Bar** | Japanese | $$$ | 4.0 | Fresh.") /\
    mapUri r = lit "https://maps.example/sushi".
Proof.
  apply (maps_uri_wins lowerBasicLatin midnight taipei
           [taipeiBranch; bothSources] _ 1%nat bothSources
           (lit "https://maps.example/sushi")
           (lit "https://example.com/sushi")).
  - vm_compute. reflexivity.
  - reflexivity.
  - discriminate.
  - reflexivity.
Defined.

(** C8.  Name cleanup removes a leading ordinal, that is digits, a dot and
    the white space after it, from the name field, and then every asterisk,
    so that no name holds an asterisk; the field ["1. " ++ dinTaiFung] gives
    the name [dinTaiFung]. *)
Theorem name_cleanup :
  (forall ds rest others,
     ds <> [] -> Forall (fun c => isDigit c = true) ds ->
     nameOf ((ds ++ 0x2E :: rest) :: others)
     = orElse (Some (stripAsterisks (skipWhile isWhiteSpace rest)))
         unknownRestaurant) /\
  (forall field others,
     nameOf (field :: others)
     = orElse (Some (filter (fun c => negb (c =? 0x2A)) (stripOrdinal field)))
         unknownRestaurant) /\
  (forall parts, ~ In 0x2A (nameOf parts)) /\
  nameOf [lit "1. " ++ dinTaiFung] = dinTaiFung /\
  nameOf (partsOf (lit "1. " ++ sampleLine)) = dinTaiFung.
Proof.
  split; [|split; [|split; [|split]]].
  - intros ds rest others Hne Hds. unfold nameOf. simpl.
    now rewrite stripOrdinal_prefix.
  - reflexivity.
  - intros parts. unfold nameOf.
    destruct parts as [|p ps]; simpl.
    + vm_compute. intuition discriminate.
    + pose proof (stripAsterisks_clean (stripOrdinal p)) as H.
      destruct (stripAsterisks (stripOrdinal p)); [|assumption].
      vm_compute. intuition discriminate.
  - reflexivity.
  - reflexivity.
Qed.

Lemma name_cleanup_witness :
  nameOf ((lit "12" ++ 0x2E :: lit "  *Ramen* Ya") :: [lit "noodles"])
  = lit "Ramen Ya".
Proof.
  destruct name_cleanup as (H & _).
  rewrite (H (lit "12") (lit "  *Ramen* Ya") [lit "noodles"]).
  - reflexivity.
  - discriminate.
  - repeat constructor.
Defined.

(** C9 as the specification words it fails: the identifier of a record holds
    what [Date.now()] returned, so two runs on one response at different
    times give different lists. *)
Lemma identifiers_follow_the_clock :
  fetchRecommendations lowerBasicLatin (fun _ => 1700000000000) taipei
    (Resolves (respond sampleLine []))
  <> fetchRecommendations lowerBasicLatin (fun _ => 1700000000001) taipei
       (Resolves (respond sampleLine [])).
Proof. vm_compute. discriminate. Qed.

(** C9, amended.  For a fixed response, two runs log the same and settle the
    same way with record lists that agree in every field but [id]; the
    records at one position have the same identifier in both runs if and
    only if [Date.now()] returned the same reading for that position in both
    runs, so that the lists are equal when the readings all agree. *)
Theorem same_records_up_to_id (toLowerCase : jsstring -> jsstring)
    (now now' : nat -> Z) (location : GeoLocation) (served : Awaited) :
  fst (fetchRecommendations toLowerCase now location served)
  = fst (fetchRecommendations toLowerCase now' location served) /\
  fmap (map withoutId)
    (snd (fetchRecommendations toLowerCase now location served))
  = fmap (map withoutId)
      (snd (fetchRecommendations toLowerCase now' location served)) /\
  ((forall k, (k < 5)%nat -> now k = now' k) ->
   fetchRecommendations toLowerCase now location served
   = fetchRecommendations toLowerCase now' location served) /\
  (forall log log' restaurants restaurants',
     fetchRecommendations toLowerCase now location served
       = (log, Ok restaurants) ->
     fetchRecommendations toLowerCase now' location served
       = (log', Ok restaurants') ->
     forall k r r',
       nth_error restaurants k = Some r ->
       nth_error restaurants' k = Some r' ->
       (id r = id r' <-> now k = now' k)).
Proof.
  assert (forall log log' restaurants restaurants',
     fetchRecommendations toLowerCase now location served
       = (log, Ok restaurants) ->
     fetchRecommendations toLowerCase now' location served
       = (log', Ok restaurants') ->
     forall k r r',
       nth_error restaurants k = Some r ->
       nth_error restaurants' k = Some r' ->
       (id r = id r' <-> now k = now' k)) as readings.
  { intros log log' rs rs' H H' k r r' Hk Hk'.
    destruct served as [response|error]; [|discriminate].
    destruct (returned_ids _ _ _ _ _ _ H) as [ids _].
    destruct (returned_ids _ _ _ _ _ _ H') as [ids' _].
    destruct (ids k r Hk) as [_ ->], (ids' k r' Hk') as [_ ->].
    split; [apply identifier_inj|now intros ->]. }
  destruct served as [response|error];
    [|split; [reflexivity|split; [reflexivity|split;
        [intros _; reflexivity|exact readings]]]].
  assert (fmap (map withoutId)
            (restaurantsOf toLowerCase now location response)
          = fmap (map withoutId)
              (restaurantsOf toLowerCase now' location response)) as E.
  { unfold restaurantsOf. apply mapIndexed_fmap. intros line k.
    apply restaurantOf_withoutId. }
  unfold fetchRecommendations in *. split; [|split; [|split]].
  - destruct (restaurantsOf toLowerCase now location response),
      (restaurantsOf toLowerCase now' location response);
      simpl in *; congruence.
  - destruct (restaurantsOf toLowerCase now location response),
      (restaurantsOf toLowerCase now' location response);
      simpl in *; congruence.
  - intros Hclock.
    assert (restaurantsOf toLowerCase now location response
            = restaurantsOf toLowerCase now' location response) as ->;
      [|reflexivity].
    unfold restaurantsOf. apply mapIndexed_ext. intros line k Hk.
    pose proof (firstn_le_length 5 (linesOf (textOf response))) as H5.
    unfold restaurantOf. now rewrite Hclock by lia.
  - exact readings.
Qed.

Lemma same_records_up_to_id_witness :
  fetchRecommendations lowerBasicLatin midnight taipei
    (Resolves (respond sampleText [taipeiBranch]))
  = fetchRecommendations lowerBasicLatin
      (fun k => if (k <? 5)%nat then 1700000000000 else 0) taipei
      (Resolves (respond sampleText [taipeiBranch])).
Proof.
  apply (same_records_up_to_id lowerBasicLatin midnight
           (fun k => if (k <? 5)%nat then 1700000000000 else 0) taipei).
  intros k Hk. apply Nat.ltb_lt in Hk. now rewrite Hk.
Defined.



(** ** Further properties of [fetchRecommendations] *)

Import StringLaws UriSafety RecordFacts.

(** X1.  A response whose text holds no pipe character, or that has no text
    at all, gives the empty list: nothing is logged and nothing fails. *)
Theorem no_pipe_no_records (toLowerCase : jsstring -> jsstring)
    (now : nat -> Z) (location : GeoLocation)
    (response : GenerateContentResponse) :
  ~ In pipe (textOf response) ->
  fetchRecommendations toLowerCase now location (Resolves response)
  = ([], Ok []).
Proof.
  intros H. unfold fetchRecommendations, restaurantsOf.
  assert (linesOf (textOf response) = []) as ->; [|reflexivity].
  unfold linesOf. apply filter_none. intros line Hin.
  apply split_In in Hin as [_ Hincl].
  destruct (includes line [pipe]) eqn:E; [|reflexivity].
  apply includes_unit in E. elim H. now apply Hincl.
Qed.

Lemma no_pipe_no_records_witness :
  fetchRecommendations lowerBasicLatin midnight taipei
    (Resolves {| text := None; candidates := None |}) = ([], Ok [])
  /\ fetchRecommendations lowerBasicLatin midnight taipei
       (Resolves (respond (lit "Sorry, I found nothing nearby.") []))
     = ([], Ok []).
Proof.
  split; apply no_pipe_no_records; vm_compute; intuition discriminate.
Defined.

(** X2.  The record at position [k] of a returned list has the identifier
    ["rest-k-t"], [t] being what [Date.now()] returned for it; so the
    identifiers of one list are pairwise distinct, whatever the clock
    does. *)
Theorem identifiers_distinct (toLowerCase : jsstring -> jsstring)
    (now : nat -> Z) (location : GeoLocation)
    (response : GenerateContentResponse) (log : list LogEntry)
    (restaurants : list Restaurant) :
  fetchRecommendations toLowerCase now location (Resolves response)
    = (log, Ok restaurants) ->
  (forall k r, nth_error restaurants k = Some r ->
     (k < 5)%nat /\
     id r = lit "rest-" ++ ofInteger (Z.of_nat k) ++ lit "-"
              ++ ofInteger (now k)) /\
  NoDup (map id restaurants).
Proof. apply returned_ids. Qed.

Lemma identifiers_distinct_witness :
  exists restaurants,
    fetchRecommendations lowerBasicLatin midnight taipei
      (Resolves (respond sampleText [])) = ([], Ok restaurants) /\
    NoDup (map id restaurants).
Proof.
  eexists. split; [vm_compute; reflexivity|].
  apply (identifiers_distinct lowerBasicLatin midnight taipei
           (respond sampleText []) []).
  vm_compute. reflexivity.
Defined.

(** X3.  No returned record has an empty name, cuisine, price level, rating
    or description: a field that is missing or blank has its placeholder. *)
Theorem fields_never_empty (toLowerCase : jsstring -> jsstring)
    (now : nat -> Z) (location : GeoLocation)
    (response : GenerateContentResponse) (log : list LogEntry)
    (restaurants : list Restaurant) :
  fetchRecommendations toLowerCase now location (Resolves response)
    = (log, Ok restaurants) ->
  Forall (fun r => Forall (fun f => f <> []) (parsedFields r)) restaurants.
Proof.
  apply returned_fields. intros line i _ Hi.
  destruct i as [|[|[|[|[|i]]]]]; try lia;
    apply orElse_nonempty; discriminate.
Qed.

Lemma fields_never_empty_witness :
  exists restaurants,
    fetchRecommendations lowerBasicLatin midnight taipei
      (Resolves (respond sampleText [])) = ([], Ok restaurants) /\
    Forall (fun r => Forall (fun f => f <> []) (parsedFields r)) restaurants.
Proof.
  eexists. split; [vm_compute; reflexivity|].
  apply (fields_never_empty lowerBasicLatin midnight taipei
           (respond sampleText []) []).
  vm_compute. reflexivity.
Defined.

(** X4.  No field of a returned record holds a pipe character or a line
    feed: the text is cut at both before the fields are read. *)
Theorem fields_hold_no_delimiter (toLowerCase : jsstring -> jsstring)
    (now : nat -> Z) (location : GeoLocation)
    (response : GenerateContentResponse) (log : list LogEntry)
    (restaurants : list Restaurant) :
  fetchRecommendations toLowerCase now location (Resolves response)
    = (log, Ok restaurants) ->
  Forall (fun r =>
    Forall (fun f => ~ In pipe f /\ ~ In newline f) (parsedFields r))
    restaurants.
Proof.
  apply returned_fields. intros line i Hin Hi.
  apply line_no_newline in Hin as [Hnl _].
  destruct (field_incl line i Hi) as [->|[Hincl Hp]].
  - destruct i as [|[|[|[|[|i]]]]]; try lia;
      vm_compute; intuition discriminate.
  - split; [assumption|]. intros H. apply Hnl. now apply Hincl.
Qed.

Lemma fields_hold_no_delimiter_witness :
  exists restaurants,
    fetchRecommendations lowerBasicLatin midnight taipei
      (Resolves (respond sampleText [])) = ([], Ok restaurants) /\
    Forall (fun r =>
      Forall (fun f => ~ In pipe f /\ ~ In newline f) (parsedFields r))
      restaurants.
Proof.
  eexists. split; [vm_compute; reflexivity|].
  apply (fields_hold_no_delimiter lowerBasicLatin midnight taipei
           (respond sampleText []) []).
  vm_compute. reflexivity.
Defined.

(** X5.  The cuisine, the price level, the rating and the description of a
    returned record carry no white space at either end: trimming them again
    changes nothing.  (The name may, where an asterisk stood next to a
    blank.) *)
Theorem fields_are_trimmed (toLowerCase : jsstring -> jsstring)
    (now : nat -> Z) (location : GeoLocation)
    (response : GenerateContentResponse) (log : list LogEntry)
    (restaurants : list Restaurant) :
  fetchRecommendations toLowerCase now location (Resolves response)
    = (log, Ok restaurants) ->
  Forall (fun r =>
    trim (cuisine r) = cuisine r /\ trim (priceLevel r) = priceLevel r /\
    trim (rating r) = rating r /\ trim (description r) = description r)
    restaurants.
Proof.
  intros H. apply returned_from_lines in H.
  eapply Forall_impl; [|exact H].
  intros r (line & k & _ & Hr).
  apply restaurantOf_Ok in Hr as ((_ & -> & -> & -> & ->) & _).
  assert (forall i, (1 <= i < 5)%nat ->
            trim (fieldOf i (partsOf line)) = fieldOf i (partsOf line))
    as trimmed.
  { intros i Hi. destruct (field_origin line i) as [E|(piece & _ & E)];
      [lia| |].
    - rewrite E. destruct i as [|[|[|[|[|i]]]]]; try lia; reflexivity.
    - rewrite E. destruct i as [|i]; [lia|]. apply trim_idem. }
  repeat split;
    [apply (trimmed 1%nat)|apply (trimmed 2%nat)|apply (trimmed 3%nat)
    |apply (trimmed 4%nat)]; lia.
Qed.

Lemma fields_are_trimmed_witness :
  exists restaurants,
    fetchRecommendations lowerBasicLatin midnight taipei
      (Resolves (respond sampleText [])) = ([], Ok restaurants) /\
    Forall (fun r =>
      trim (cuisine r) = cuisine r /\ trim (priceLevel r) = priceLevel r /\
      trim (rating r) = rating r /\ trim (description r) = description r)
      restaurants.
Proof.
  eexists. split; [vm_compute; reflexivity|].
  apply (fields_are_trimmed lowerBasicLatin midnight taipei
           (respond sampleText []) []).
  vm_compute. reflexivity.
Defined.

(** X6.  A search link cannot be broken by what the model wrote: when the
    response text is made of 16-bit code units, the part of the link after
    ["query="] holds only unreserved characters and percent signs, hence no
    ampersand, no equals sign, no hash and no blank. *)
Theorem search_link_is_safe (toLowerCase : jsstring -> jsstring)
    (now : nat -> Z) (location : GeoLocation)
    (response : GenerateContentResponse) (log : list LogEntry)
    (restaurants : list Restaurant) :
  codeUnits (textOf response) ->
  fetchRecommendations toLowerCase now location (Resolves response)
    = (log, Ok restaurants) ->
  Forall (fun r =>
    ungrounded (matchedChunk toLowerCase (chunksOf response) (name r)) ->
    exists encoded,
      mapUri r = searchLink ++ encoded /\
      Forall (fun c => isUriSafe c = true) encoded /\
      ~ In 0x26 encoded /\ ~ In 0x3D encoded /\ ~ In 0x23 encoded /\
      ~ In 0x20 encoded) restaurants.
Proof.
  intros Hcu H. apply returned_from_lines in H.
  eapply Forall_impl; [|exact H].
  intros r (line & k & Hin & Hr) Hun.
  apply restaurantOf_Ok in Hr as ((Hname & _) & Hu & _).
  apply mapUriOf_Ok in Hu as [_ Hu].
  destruct (Hu Hun) as (enc & Henc & Hmap). exists enc.
  assert (Forall (fun c => isUriSafe c = true) enc) as Hsafe.
  { apply (encodeURIComponent_safe (searchQuery location (name r)));
      [|assumption].
    apply codeUnits_searchQuery. rewrite Hname. apply codeUnits_nameOf.
    apply line_no_newline in Hin as [_ Hincl].
    unfold codeUnits in *. rewrite Forall_forall in *.
    intros c Hc. apply Hcu. now apply Hincl. }
  split; [assumption|]. split; [assumption|].
  rewrite Forall_forall in Hsafe.
  repeat split; intros Hc; apply Hsafe in Hc; discriminate.
Qed.

Lemma search_link_is_safe_witness :
  exists restaurants,
    fetchRecommendations lowerBasicLatin midnight taipei
      (Resolves (respond (lit "Fish & Chips #1 | pub?x=1 | $") []))
    = ([], Ok restaurants) /\
    Forall (fun r =>
      ungrounded (matchedChunk lowerBasicLatin
        (chunksOf (respond (lit "Fish & Chips #1 | pub?x=1 | $") []))
        (name r)) ->
      exists encoded,
        mapUri r = searchLink ++ encoded /\
        Forall (fun c => isUriSafe c = true) encoded /\
        ~ In 0x26 encoded /\ ~ In 0x3D encoded /\ ~ In 0x23 encoded /\
        ~ In 0x20 encoded) restaurants.
Proof.
  eexists. split; [vm_compute; reflexivity|].
  apply (search_link_is_safe lowerBasicLatin midnight taipei
           (respond (lit "Fish & Chips #1 | pub?x=1 | $") []) []).
  - change (codeUnits (lit "Fish & Chips #1 | pub?x=1 | $")).
    apply codeUnits_lit.
  - vm_compute. reflexivity.
Defined.

(** X7.  The [mapUri] of a returned record is never made up from elsewhere:
    it is the search link for the record's name, or it is the URI of the web
    or maps source of a chunk of the response whose title mentions that
    name. *)
Theorem mapUri_provenance (toLowerCase : jsstring -> jsstring)
    (now : nat -> Z) (location : GeoLocation)
    (response : GenerateContentResponse) (log : list LogEntry)
    (restaurants : list Restaurant) :
  fetchRecommendations toLowerCase now location (Resolves response)
    = (log, Ok restaurants) ->
  Forall (fun r =>
    (exists encoded,
       encodeURIComponent (searchQuery location (name r)) = Ok encoded /\
       mapUri r = searchLink ++ encoded) \/
    (exists c src,
       In c (chunksOf response) /\
       mentions toLowerCase (name r) c = true /\
       (maps c = Some src \/ web c = Some src) /\
       uri src = Some (mapUri r))) restaurants.
Proof.
  intros H. apply returned_from_lines in H.
  eapply Forall_impl; [|exact H].
  intros r (line & k & _ & Hr).
  apply restaurantOf_Ok in Hr as (_ & Hu & _).
  unfold mapUriOf in Hu.
  destruct (matchedChunk toLowerCase (chunksOf response) (name r))
    as [c|] eqn:M.
  - apply find_some in M as [Hin Hm]. unfold groundedUri in Hu.
    destruct (maps c) as [ms|] eqn:Em; simpl in Hu.
    + destruct (uri ms) as [[|x u]|] eqn:Eu; simpl in Hu.
      * destruct (web c) as [ws|] eqn:Ew; simpl in Hu.
        -- destruct (uri ws) as [[|y v]|] eqn:Ev; simpl in Hu;
             try (injection Hu as <-; right; exists c, ws; now auto);
             left; destruct (encodeURIComponent _);
             [injection Hu as <-; now eexists|discriminate
             |injection Hu as <-; now eexists|discriminate].
        -- left. destruct (encodeURIComponent _);
             [injection Hu as <-; now eexists|discriminate].
      * injection Hu as <-. right. exists c, ms. now auto.
      * destruct (web c) as [ws|] eqn:Ew; simpl in Hu.
        -- destruct (uri ws) as [[|y v]|] eqn:Ev; simpl in Hu;
             try (injection Hu as <-; right; exists c, ws; now auto);
             left; destruct (encodeURIComponent _);
             [injection Hu as <-; now eexists|discriminate
             |injection Hu as <-; now eexists|discriminate].
        -- left. destruct (encodeURIComponent _);
             [injection Hu as <-; now eexists|discriminate].
    + destruct (web c) as [ws|] eqn:Ew; simpl in Hu.
      * destruct (uri ws) as [[|y v]|] eqn:Ev; simpl in Hu;
          try (injection Hu as <-; right; exists c, ws; now auto);
          left; destruct (encodeURIComponent _);
          [injection Hu as <-; now eexists|discriminate
          |injection Hu as <-; now eexists|discriminate].
      * left. destruct (encodeURIComponent _);
          [injection Hu as <-; now eexists|discriminate].
  - simpl in Hu. left. destruct (encodeURIComponent _);
      [injection Hu as <-; now eexists|discriminate].
Qed.

Lemma mapUri_provenance_witness :
  exists restaurants,
    fetchRecommendations lowerBasicLatin midnight taipei
      (Resolves (respond sampleText [taipeiBranch; bothSources]))
    = ([], Ok restaurants) /\
    Forall (fun r =>
      (exists encoded,
         encodeURIComponent (searchQuery taipei (name r)) = Ok encoded /\
         mapUri r = searchLink ++ encoded) \/
      (exists c src,
         In c (chunksOf (respond sampleText [taipeiBranch; bothSources])) /\
         mentions lowerBasicLatin (name r) c = true /\
         (maps c = Some src \/ web c = Some src) /\
         uri src = Some (mapUri r))) restaurants.
Proof.
  eexists. split; [vm_compute; reflexivity|].
  apply (mapUri_provenance lowerBasicLatin midnight taipei
           (respond sampleText [taipeiBranch; bothSources]) []).
  vm_compute. reflexivity.
Defined.

(** X8.  When the chunk matched for a line has no usable maps URI but has a
    web URI, the record's [mapUri] is the web URI. *)
Theorem web_uri_second (toLowerCase : jsstring -> jsstring) (now : nat -> Z)
    (location : GeoLocation) (chunks : list GroundingChunk)
    (line : jsstring) (index : nat) (c : GroundingChunk)
    (webUri : jsstring) :
  matchedChunk toLowerCase chunks (nameOf (partsOf line)) = Some c ->
  usable (uriOf (maps c)) = false ->
  uriOf (web c) = Some webUri -> webUri <> [] ->
  exists r,
    restaurantOf toLowerCase now location chunks line index = Ok r /\
    readsLine r line /\ mapUri r = webUri.
Proof.
  intros Hm Hmaps Hweb Hne. unfold restaurantOf, mapUriOf.
  rewrite Hm. unfold groundedUri. rewrite Hmaps, Hweb.
  destruct webUri as [|x u]; [contradiction|]. simpl.
  eexists. split; [reflexivity|]. unfold readsLine. simpl. tauto.
Qed.

Lemma web_uri_second_witness :
  exists r,
    restaurantOf lowerBasicLatin midnight taipei [webOnly]
      (lit "Ramen Ya | noodles | $ | 4.4 | Late hours.") 0 = Ok r /\
    readsLine r (lit "Ramen Ya | noodles | $ | 4.4 | Late hours.") /\
    mapUri r = lit "https://example.com/ramen".
Proof.
  apply (web_uri_second lowerBasicLatin midnight taipei [webOnly] _ 0%nat
           webOnly (lit "https://example.com/ramen")).
  - vm_compute. reflexivity.
  - reflexivity.
  - reflexivity.
  - discriminate.
Defined.

(** X9.  Only the first chunk that mentions a name counts: the chunks before
    it and the chunks after it do not change the [mapUri].  So a first match
    without a usable URI gives the search link even when a later chunk that
    also mentions the name has a URI. *)
Theorem first_mention_decides (toLowerCase : jsstring -> jsstring)
    (location : GeoLocation) (before after : list GroundingChunk)
    (c : GroundingChunk) (name : jsstring) :
  Forall (fun b => mentions toLowerCase name b = false) before ->
  mentions toLowerCase name c = true ->
  mapUriOf toLowerCase location (before ++ c :: after) name
  = mapUriOf toLowerCase location [c] name.
Proof.
  intros Hb Hc. unfold mapUriOf, matchedChunk.
  assert (find (mentions toLowerCase name) (before ++ c :: after) = Some c)
    as ->.
  { induction Hb as [|b before Hbm _ IH]; simpl.
    - now rewrite Hc.
    - now rewrite Hbm. }
  simpl. now rewrite Hc.
Qed.

Lemma first_mention_decides_witness :
  mapUriOf lowerBasicLatin taipei [taipeiBranch; untitledLink; bothSources]
    (lit "Sushi Bar")
  = mapUriOf lowerBasicLatin taipei [untitledLink] (lit "Sushi Bar")
  /\ mapUriOf lowerBasicLatin taipei [untitledLink] (lit "Sushi Bar")
     = Ok (searchLink ++ lit "Sushi%20Bar%2025.033%2C121.5654").
Proof.
  split; [|reflexivity].
  apply (first_mention_decides lowerBasicLatin taipei [taipeiBranch]
           [bothSources] untitledLink (lit "Sushi Bar")).
  - repeat constructor.
  - reflexivity.
Defined.

(** X10.  The name and the coordinate are encoded side by side: when the
    name has no usable grounded URI and the two coordinates print with
    digits, signs, dots and letters only, the record's link is the search
    link, the encoded name, ["%20"], the latitude as it prints, ["%2C"] and
    the longitude as it prints; and when the name cannot be encoded, neither
    can the link. *)
Theorem search_link_shape (toLowerCase : jsstring -> jsstring)
    (location : GeoLocation) (chunks : list GroundingChunk)
    (name : jsstring) :
  ungrounded (matchedChunk toLowerCase chunks name) ->
  Forall (fun c => isUnescaped c = true) (lit (lat location)) ->
  Forall (fun c => isUnescaped c = true) (lit (lng location)) ->
  mapUriOf toLowerCase location chunks name
  = fmap (fun encoded =>
            searchLink ++ encoded ++ lit "%20" ++ lit (lat location)
              ++ lit "%2C" ++ lit (lng location))
      (encodeURIComponent name).
Proof.
  intros Hun Hlat Hlng. unfold mapUriOf.
  apply groundedUri_ungrounded in Hun. rewrite Hun. simpl.
  unfold searchQuery.
  destruct (encodeURIComponent name) as [en|e] eqn:En.
  - rewrite (encodeURIComponent_app name _ en En).
    rewrite (encodeURIComponent_app (lit " ") _ (lit "%20") eq_refl).
    rewrite (encodeURIComponent_app (lit (lat location)) _ _
               (encodeURIComponent_unescaped _ Hlat)).
    rewrite (encodeURIComponent_app (lit ",") _ (lit "%2C") eq_refl).
    rewrite (encodeURIComponent_unescaped _ Hlng). reflexivity.
  - now rewrite (encodeURIComponent_app_Throw name _ e En).
Qed.

Lemma search_link_shape_witness :
  mapUriOf lowerBasicLatin taipei [taipeiBranch] dinTaiFung
  = fmap (fun encoded =>
            searchLink ++ encoded ++ lit "%20" ++ lit "25.033"
              ++ lit "%2C" ++ lit "121.5654")
      (encodeURIComponent dinTaiFung).
Proof.
  apply (search_link_shape lowerBasicLatin taipei [taipeiBranch] dinTaiFung).
  - exact I.
  - repeat constructor.
  - repeat constructor.
Defined.

(** X11.  Without grounding every record gets a search link: when the
    response has no candidates, or its first candidate has no grounding
    metadata, or the metadata has no chunks, the [mapUri] of every returned
    record is the search link for its name. *)
Theorem no_grounding_search_links (toLowerCase : jsstring -> jsstring)
    (now : nat -> Z) (location : GeoLocation)
    (response : GenerateContentResponse) (log : list LogEntry)
    (restaurants : list Restaurant) :
  noGrounding response ->
  fetchRecommendations toLowerCase now location (Resolves response)
    = (log, Ok restaurants) ->
  Forall (fun r =>
    exists encoded,
      encodeURIComponent (searchQuery location (name r)) = Ok encoded /\
      mapUri r = searchLink ++ encoded) restaurants.
Proof.
  intros Hno H. apply chunksOf_noGrounding in Hno.
  apply returned_from_lines in H. rewrite Hno in H.
  eapply Forall_impl; [|exact H].
  intros r (line & k & _ & Hr).
  apply restaurantOf_Ok in Hr as (_ & Hu & _).
  apply mapUriOf_Ok in Hu as [_ Hu]. apply Hu. exact I.
Qed.

Lemma no_grounding_search_links_witness :
  exists restaurants,
    fetchRecommendations lowerBasicLatin midnight taipei
      (Resolves {| text := Some shortText;
                   candidates := Some [{| groundingMetadata := None |}] |})
    = ([], Ok restaurants) /\
    Forall (fun r =>
      exists encoded,
        encodeURIComponent (searchQuery taipei (name r)) = Ok encoded /\
        mapUri r = searchLink ++ encoded) restaurants.
Proof.
  eexists. split; [vm_compute; reflexivity|].
  apply (no_grounding_search_links lowerBasicLatin midnight taipei
           {| text := Some shortText;
              candidates := Some [{| groundingMetadata := None |}] |} []).
  - right. right. eexists _, _. split; [reflexivity|]. now left.
  - vm_compute. reflexivity.
Defined.

(** X12.  The parser reads back the line format the prompt dictates: five
    clean fields joined by [" | "] come out as they went in, none replaced
    by a placeholder, provided the name has no asterisk and does not start
    with a digit; and such a line qualifies. *)
Theorem format_round_trip (n c p r d : jsstring) :
  cleanField n -> cleanField c -> cleanField p -> cleanField r ->
  cleanField d ->
  ~ In 0x2A n -> (forall x rest, n = x :: rest -> isDigit x = false) ->
  let parts := partsOf (formatLine n c p r d) in
  parts = [n; c; p; r; d] /\
  nameOf parts = n /\ cuisineOf parts = c /\ priceLevelOf parts = p /\
  ratingOf parts = r /\ descriptionOf parts = d /\
  includes (formatLine n c p r d) [pipe] = true.
Proof.
  intros (Nn & Pn & Tn) (Nc & Pc & Tc) (Np & Pp & Tp) (Nr & Pr & Tr)
    (Nd & Pd & Td) Hstar Hdigit parts.
  assert (forall f, ~ In pipe f -> ~ In pipe (f ++ [0x20])) as pad.
  { intros f Hf H. apply in_app_iff in H as [H|[H|[]]];
      [tauto|discriminate]. }
  assert (forall f rest,
    ~ In pipe f ->
    split pipe (f ++ lit " | " ++ rest)
    = (f ++ [0x20]) :: split pipe (0x20 :: rest)) as cut.
  { intros f rest Hf.
    change (f ++ lit " | " ++ rest)
      with (f ++ [0x20] ++ pipe :: 0x20 :: rest).
    rewrite app_assoc, split_app_sep, (split_plain pipe _ (pad f Hf)).
    reflexivity. }
  assert (forall f rest,
    ~ In pipe f ->
    split pipe (0x20 :: f ++ lit " | " ++ rest)
    = (0x20 :: f ++ [0x20]) :: split pipe (0x20 :: rest)) as cut'.
  { intros f rest Hf.
    change (0x20 :: f ++ lit " | " ++ rest)
      with ((0x20 :: f) ++ lit " | " ++ rest).
    rewrite cut; [reflexivity|].
    intros [H|H]; [discriminate|tauto]. }
  assert (forall f, trim f = f -> trim (f ++ [0x20]) = f) as right_pad.
  { intros f Hf. rewrite <- Hf at 2.
    apply (trim_padding [] f [0x20]); repeat constructor. }
  assert (forall f, trim f = f -> trim (0x20 :: f ++ [0x20]) = f)
    as both_pad.
  { intros f Hf. rewrite <- Hf at 2.
    apply (trim_padding [0x20] f [0x20]); repeat constructor. }
  assert (forall f, trim f = f -> trim (0x20 :: f) = f) as left_pad.
  { intros f Hf. rewrite <- Hf at 2.
    rewrite <- (app_nil_r f) at 1.
    apply (trim_padding [0x20] f []); repeat constructor. }
  assert (parts = [n; c; p; r; d]) as E.
  { unfold parts, partsOf, formatLine.
    rewrite cut, !cut' by assumption.
    rewrite (split_plain pipe (0x20 :: d))
      by (intros [H|H]; [discriminate|tauto]).
    simpl. now rewrite right_pad, !both_pad, left_pad. }
  split; [exact E|]. rewrite E.
  unfold nameOf, cuisineOf, priceLevelOf, ratingOf, descriptionOf. simpl.
  assert (stripOrdinal n = n) as ->.
  { unfold stripOrdinal. destruct n as [|x rest]; [reflexivity|].
    now rewrite (Hdigit x rest eq_refl). }
  assert (stripAsterisks n = n) as ->.
  { unfold stripAsterisks. apply forallb_filter_id. apply forallb_forall.
    intros x Hx. apply negb_true_iff. apply Z.eqb_neq. intros ->. tauto. }
  destruct n, c, p, r, d; try contradiction.
  repeat split. apply includes_unit. unfold formatLine.
  rewrite !in_app_iff. right. left. simpl. tauto.
Qed.

Lemma format_round_trip_witness :
  let parts :=
    partsOf (formatLine dinTaiFung (lit "noodles") (lit "$$") (lit "4.5")
               (lit "Thin-skinned soup dumplings.")) in
  parts = [dinTaiFung; lit "noodles"; lit "$$"; lit "4.5";
           lit "Thin-skinned soup dumplings."] /\
  nameOf parts = dinTaiFung /\ cuisineOf parts = lit "noodles" /\
  priceLevelOf parts = lit "$$" /\ ratingOf parts = lit "4.5" /\
  descriptionOf parts = lit "Thin-skinned soup dumplings." /\
  includes (formatLine dinTaiFung (lit "noodles") (lit "$$") (lit "4.5")
              (lit "Thin-skinned soup dumplings.")) [pipe] = true.
Proof.
  apply format_round_trip;
    try (split; [discriminate|split; [vm_compute; intuition discriminate
                                     |reflexivity]]).
  - vm_compute. intuition discriminate.
  - intros x rest [= <- _]. reflexivity.
Defined.

(** X13.  Lines without a pipe do not count, wherever they stand: a preamble
    before the list, a remark after it or commentary between two of its
    lines leaves the outcome of the call as it is without them. *)
Theorem commentary_is_ignored (toLowerCase : jsstring -> jsstring)
    (now : nat -> Z) (location : GeoLocation)
    (chunks : list GroundingChunk) (a junk b : jsstring) :
  ~ In pipe junk ->
  fetchRecommendations toLowerCase now location
    (Resolves (respond (junk ++ newline :: b) chunks))
  = fetchRecommendations toLowerCase now location
      (Resolves (respond b chunks)) /\
  fetchRecommendations toLowerCase now location
    (Resolves (respond (a ++ newline :: junk) chunks))
  = fetchRecommendations toLowerCase now location
      (Resolves (respond a chunks)) /\
  fetchRecommendations toLowerCase now location
    (Resolves (respond (a ++ newline :: junk ++ newline :: b) chunks))
  = fetchRecommendations toLowerCase now location
      (Resolves (respond (a ++ newline :: b) chunks)).
Proof.
  intros H. unfold fetchRecommendations, restaurantsOf.
  rewrite !textOf_respond, !linesOf_app, (linesOf_no_pipe junk H).
  now rewrite app_nil_r.
Qed.

Lemma commentary_is_ignored_witness :
  fetchRecommendations lowerBasicLatin midnight taipei
    (Resolves (respond (lit "Here are some places:" ++ newline :: sampleLine)
                 [taipeiBranch]))
  = fetchRecommendations lowerBasicLatin midnight taipei
      (Resolves (respond sampleLine [taipeiBranch])).
Proof.
  assert (~ In pipe (lit "Here are some places:")) as Hj
    by (vm_compute; intuition discriminate).
  destruct (commentary_is_ignored lowerBasicLatin midnight taipei
              [taipeiBranch] [] (lit "Here are some places:") sampleLine Hj)
    as (H & _).
  exact H.
Defined.

(** X14.  Line endings do not matter: a response text whose lines end in a
    carriage return and a line feed gives the same outcome as the text with
    bare line feeds. *)
Theorem carriage_returns_are_ignored (toLowerCase : jsstring -> jsstring)
    (now : nat -> Z) (location : GeoLocation)
    (chunks : list GroundingChunk) (text : jsstring) :
  fetchRecommendations toLowerCase now location
    (Resolves (respond (withCarriageReturns text) chunks))
  = fetchRecommendations toLowerCase now location
      (Resolves (respond text chunks)).
Proof.
  unfold fetchRecommendations, restaurantsOf. rewrite !textOf_respond.
  assert (mapIndexed
            (restaurantOf toLowerCase now location
               (chunksOf (respond (withCarriageReturns text) chunks)))
            0%nat (firstn 5 (linesOf (withCarriageReturns text)))
          = mapIndexed
              (restaurantOf toLowerCase now location
                 (chunksOf (respond text chunks)))
              0%nat (firstn 5 (linesOf text))) as ->; [|reflexivity].
  change (chunksOf (respond (withCarriageReturns text) chunks)) with chunks.
  change (chunksOf (respond text chunks)) with chunks.
  apply mapIndexed_Forall2_eq. apply Forall2_firstn.
  eapply Forall2_impl; [|apply linesOf_withCarriageReturns].
  intros l' l [->| ->] k; [reflexivity|].
  unfold restaurantOf. now rewrite partsOf_snoc.
Qed.

(** ** Facts about the component *)

Module AppFacts.
Import RecordFacts.

Section Runs.

Context {PriceLevel DistanceRange : Type}.

Abbreviation State := (@App.AppState PriceLevel DistanceRange).
Abbreviation Event := (@App.Event PriceLevel DistanceRange).
Abbreviation Effect := (@App.Effect PriceLevel DistanceRange).

(** What one event can leave in [recommendations]: what was there, nothing,
    or the list a fetch resolved with. *)
Lemma step_recommendations (s : State) (e : Event) :
  App.recommendations (fst (App.step s e)) = App.recommendations s \/
  App.recommendations (fst (App.step s e)) = [] \/
  exists origin,
    e = App.Settled origin (Ok (App.recommendations (fst (App.step s e)))).
Proof.
  destruct e as [[|]| | | | | |origin [rs|err]| | |]; simpl; auto.
  - unfold App.handleSearch.
    destruct (App.location s), (App.selectedCategory s) as [[|c id]|];
      simpl; auto.
  - unfold App.handleCategorySelect. destruct (App.location s); simpl; auto.
  - unfold App.retry, App.handleCategorySelect.
    destruct (App.selectedCategory s) as [[|c id]|]; simpl; auto.
    destruct (App.location s); simpl; auto.
  - right. right. now exists origin.
Qed.

Lemma run_recommendations (P : list Restaurant -> Prop)
    (events : list Event) :
  P [] ->
  (forall origin rs, In (App.Settled origin (Ok rs)) events -> P rs) ->
  forall s, P (App.recommendations s) ->
  P (App.recommendations (fst (App.run s events))).
Proof.
  intros Hnil. induction events as [|e rest IH]; intros Hev s Hs; simpl;
    [assumption|].
  destruct (App.step s e) as [s' started] eqn:E.
  specialize (IH (fun o rs H => Hev o rs (or_intror H)) s').
  destruct (App.run s' rest) as [final later] eqn:R. simpl in *.
  apply IH.
  pose proof (step_recommendations s e) as H. rewrite E in H. simpl in H.
  destruct H as [->|[->|(origin & ->)]]; trivial.
  apply (Hev origin). left. reflexivity.
Qed.

(** The places a step writes or fetches for: the one the state holds, or
    the one a position event brings. *)
Ltac same := first [reflexivity | simpl; assumption | simpl; congruence].

Lemma step_places (Q : GeoLocation -> Prop) (s : State) (e : Event) :
  (forall loc, App.location s = Some loc -> Q loc) ->
  (forall lat lng, e = App.PositionFound lat lng ->
                   Q {| lat := lat; lng := lng |}) ->
  (forall loc, App.location (fst (App.step s e)) = Some loc -> Q loc) /\
  (forall origin request,
     In (App.Fetch origin request) (snd (App.step s e)) ->
     Q (App.place request)).
Proof.
  intros Hs He.
  assert (forall (s' : State) (started : list Effect),
    App.location s' = App.location s ->
    (forall origin request, In (App.Fetch origin request) started ->
       App.location s = Some (App.place request)) ->
    (forall loc, App.location s' = Some loc -> Q loc) /\
    (forall origin request,
       In (App.Fetch origin request) started -> Q (App.place request)))
    as kept.
  { intros s' started Hl Hf. split.
    - intros loc H. apply Hs. congruence.
    - intros origin request H. apply Hs. eapply Hf. eassumption. }
  destruct e as [[|]| | | | | |origin [rs|err]| | |];
    try solve [apply kept; [same|simpl; intros ? ? []]].
  - apply kept; [same|]. simpl. intros ? ? [H|[]]. discriminate.
  - simpl. split; [|intros ? ? []]. intros loc [= <-]. now apply He.
  - cbn [App.step]. unfold App.handleSearch.
    destruct (App.location s) as [loc|] eqn:L;
      [|apply kept; [same|simpl; intros ? ? []]].
    destruct (App.selectedCategory s) as [[|c id]|];
      try solve [apply kept; [same|simpl; intros ? ? []]].
    apply kept; [same|]. simpl. now intros ? ? [[= <- <-]|[]].
  - cbn [App.step]. unfold App.handleCategorySelect.
    destruct (App.location s) as [loc|] eqn:L;
      [|apply kept; [same|simpl; intros ? ? []]].
    apply kept; [same|]. simpl. now intros ? ? [[= <- <-]|[]].
  - cbn [App.step]. unfold App.retry, App.handleCategorySelect.
    destruct (App.selectedCategory s) as [[|c id]|];
      try solve [apply kept; [same|simpl; intros ? ? []]].
    destruct (App.location s) as [loc|] eqn:L;
      [|apply kept; [same|simpl; intros ? ? []]].
    apply kept; [same|]. simpl. now intros ? ? [[= <- <-]|[]].
Qed.

Lemma run_places (Q : GeoLocation -> Prop) (events : list Event) :
  (forall lat lng, In (App.PositionFound lat lng) events ->
                   Q {| lat := lat; lng := lng |}) ->
  forall s,
  (forall loc, App.location s = Some loc -> Q loc) ->
  (forall loc, App.location (fst (App.run s events)) = Some loc -> Q loc) /\
  (forall origin request,
     In (App.Fetch origin request) (snd (App.run s events)) ->
     Q (App.place request)).
Proof.
  induction events as [|e rest IH]; intros Hev s Hs; simpl.
  - split; [assumption|intros ? ? []].
  - destruct (step_places Q s e Hs) as [Hloc Hfetch].
    { intros lat lng ->. apply Hev. now left. }
    destruct (App.step s e) as [s' started] eqn:E. simpl in *.
    destruct (IH (fun lat lng H => Hev lat lng (or_intror H)) s' Hloc)
      as [Hfinal Hlater].
    destruct (App.run s' rest) as [final later] eqn:R. simpl in *.
    split; [assumption|].
    intros origin request H. apply in_app_iff in H as [H|H]; eauto.
Qed.

Lemma step_location (s : State) (e : Event) :
  App.location (fst (App.step s e))
  = match e with
    | App.PositionFound lat lng => Some {| lat := lat; lng := lng |}
    | _ => App.location s
    end.
Proof.
  destruct e as [[|]| | | | | |origin [rs|err]| | |]; cbn [App.step];
    try reflexivity.
  - unfold App.handleSearch.
    destruct (App.location s) eqn:L,
      (App.selectedCategory s) as [[|c id]|]; simpl; congruence.
  - unfold App.handleCategorySelect.
    destruct (App.location s) eqn:L; simpl; congruence.
  - unfold App.retry, App.handleCategorySelect.
    destruct (App.selectedCategory s) as [[|c id]|]; try reflexivity.
    destruct (App.location s) eqn:L; simpl; congruence.
Qed.

Lemma run_location (events : list Event) :
  forall s,
  App.location (fst (App.run s events))
  = match App.lastPosition events with
    | Some place => Some place
    | None => App.location s
    end.
Proof.
  induction events as [|e rest IH]; intros s; [reflexivity|].
  cbn [App.run App.lastPosition].
  pose proof (step_location s e) as Hstep.
  destruct (App.step s e) as [s' started]. cbn [fst] in Hstep.
  specialize (IH s'). destruct (App.run s' rest) as [final later].
  cbn [fst] in *. rewrite IH.
  destruct (App.lastPosition rest); [reflexivity|].
  rewrite Hstep. now destruct e.
Qed.

(** An event other than the settling of a promise either starts no fetch
    and leaves the error as it is and the list as it is or empty, or starts
    one fetch and clears both. *)
Lemma step_starts (s : State) (e : Event) :
  (forall origin outcome, e <> App.Settled origin outcome) ->
  (App.fetches (snd (App.step s e)) = 0%nat /\
   App.error (fst (App.step s e)) = App.error s /\
   (App.recommendations (fst (App.step s e)) = App.recommendations s \/
    App.recommendations (fst (App.step s e)) = [])) \/
  (App.fetches (snd (App.step s e)) = 1%nat /\
   App.error (fst (App.step s e)) = None /\
   App.recommendations (fst (App.step s e)) = []).
Proof.
  intros He.
  destruct e as [[|]| | | | | |origin outcome| | |]; cbn [App.step];
    try (left; simpl; now auto).
  - unfold App.handleSearch.
    destruct (App.location s), (App.selectedCategory s) as [[|c id]|];
      try (left; simpl; now auto).
    right. simpl. auto.
  - unfold App.handleCategorySelect.
    destruct (App.location s); [right|left]; simpl; auto.
  - unfold App.retry, App.handleCategorySelect.
    destruct (App.selectedCategory s) as [[|c id]|];
      try (left; simpl; now auto).
    destruct (App.location s); [right|left]; simpl; auto.
  - elim (He origin outcome). reflexivity.
Qed.

Lemma run_oneAtATime (events : list Event) :
  forall pending s,
  App.settledOrWaiting pending s ->
  App.oneAtATime pending s events = true ->
  App.error (fst (App.run s events)) <> None ->
  App.recommendations (fst (App.run s events)) = [].
Proof.
  induction events as [|e rest IH]; intros pending s Hs Hone.
  - simpl. destruct pending as [|[|n]]; simpl in Hs;
      [assumption| |contradiction].
    destruct Hs as [-> _]. congruence.
  - cbn [App.run App.oneAtATime] in *.
    assert (exists pending',
              App.settledOrWaiting pending' (fst (App.step s e)) /\
              App.oneAtATime pending' (fst (App.step s e)) rest = true)
      as (p' & Hs' & Hone').
    { destruct (App.step s e) as [s' started] eqn:E. cbn [fst].
      assert (s' = fst (App.step s e)) as Es by now rewrite E.
      assert (started = snd (App.step s e)) as Et by now rewrite E.
      destruct e as [supported|lat lng|code| |cat| |origin outcome|p|d|];
        try (apply andb_true_iff in Hone as [Hp Hone];
             apply Nat.leb_le in Hp;
             exists (pending + App.fetches started)%nat;
             split; [|assumption];
             match goal with
             | |- context [App.settledOrWaiting _ _] =>
                 match type of Es with
                 | _ = fst (App.step _ ?ev) =>
                     destruct (step_starts s ev) as
                       [(F & Herr & Hrec)|(F & Herr & Hrec)];
                     [discriminate| |]
                 end
             end;
             rewrite <- ?Es, <- ?Et in *; rewrite F in *;
             destruct pending as [|[|n]]; simpl in *; try lia;
             intuition congruence).
      apply andb_true_iff in Hone as [Hp Hone].
      apply Nat.eqb_eq in Hp. subst pending. destruct Hs as [He Hr].
      exists 0%nat. split; [|assumption].
      simpl in E. injection E as <- <-.
      destruct outcome; simpl; [congruence|intros _; assumption]. }
    destruct (App.step s e) as [s' started]. cbn [fst] in *.
    specialize (IH p' s' Hs' Hone').
    destruct (App.run s' rest) as [final later]. exact IH.
Qed.

End Runs.

End AppFacts.

(** ** Properties of the component *)

Import AppFacts.

(** X15.  What the component lists was fetched: after any sequence of
    events [recommendations] is empty or is the list a fetch resolved with;
    so when those lists come from [fetchRecommendations], the component
    never lists more than 5 records, the identifiers it uses as keys are
    pairwise distinct, and every record has a map link. *)
Theorem shown_list_is_fetched {PriceLevel DistanceRange : Type}
    (MODERATE : PriceLevel) (WALKABLE : DistanceRange)
    (events : list (@App.Event PriceLevel DistanceRange)) :
  (forall origin restaurants,
     In (App.Settled origin (Ok restaurants)) events ->
     App.Fetched restaurants) ->
  let shown :=
    App.recommendations
      (fst (App.run (App.initialState MODERATE WALKABLE) events)) in
  (shown = [] \/ exists origin, In (App.Settled origin (Ok shown)) events) /\
  (length shown <= 5)%nat /\
  NoDup (map id shown) /\
  Forall (fun r => mapUri r <> []) shown.
Proof.
  intros Hev.
  apply (run_recommendations
    (fun rs =>
       (rs = [] \/ exists origin, In (App.Settled origin (Ok rs)) events) /\
       (length rs <= 5)%nat /\ NoDup (map id rs) /\
       Forall (fun r => mapUri r <> []) rs) events).
  - repeat split; auto; simpl; try lia; constructor.
  - intros origin rs Hin.
    destruct (Hev origin rs Hin) as (lower & now & loc & resp & log & H).
    split; [right; now exists origin|]. split; [|split].
    + eapply returned_at_most_five. eassumption.
    + eapply returned_ids. eassumption.
    + eapply returned_mapUri. eassumption.
  - repeat split; auto; simpl; try lia; constructor.
Qed.

Lemma shown_list_is_fetched_witness :
  let shown :=
    App.recommendations (fst (App.run App.sampleStart App.resolvedRun)) in
  (shown = [] \/
   exists origin, In (App.Settled origin (Ok shown)) App.resolvedRun) /\
  (length shown <= 5)%nat /\
  NoDup (map id shown) /\
  Forall (fun r => mapUri r <> []) shown.
Proof.
  apply (shown_list_is_fetched (lit "$$") (lit "1km") App.resolvedRun).
  intros origin restaurants [H|[H|[H|[H|[]]]]]; try discriminate.
  injection H as _ <-.
  exists lowerBasicLatin, midnight, taipei,
    (respond sampleText [taipeiBranch]), [].
  vm_compute. reflexivity.
Defined.

(** X16.  No fetch is started before a position is known, and every fetch
    is for a position that [getCurrentPosition] delivered: whatever the
    sequence of events, the location of each call of [fetchRecommendations]
    is that of an earlier success callback. *)
Theorem fetches_use_found_position {PriceLevel DistanceRange : Type}
    (MODERATE : PriceLevel) (WALKABLE : DistanceRange)
    (events : list (@App.Event PriceLevel DistanceRange))
    (origin : App.Origin) (request : App.Request) :
  In (App.Fetch origin request)
    (snd (App.run (App.initialState MODERATE WALKABLE) events)) ->
  exists lat lng,
    In (App.PositionFound lat lng) events /\
    App.place request = {| lat := lat; lng := lng |}.
Proof.
  intros H.
  destruct (run_places
    (fun loc => exists lat lng,
       In (App.PositionFound lat lng) events /\
       loc = {| lat := lat; lng := lng |}) events) with
    (s := App.initialState MODERATE WALKABLE) as [_ Hfetch].
  - intros lat lng Hin. now exists lat, lng.
  - discriminate.
  - eapply Hfetch. eassumption.
Qed.

Lemma fetches_use_found_position_witness :
  exists lat lng,
    In (App.PositionFound lat lng) App.quietRun /\
    taipei = {| lat := lat; lng := lng |}.
Proof.
  apply (fetches_use_found_position (lit "$$") (lit "1km") App.quietRun
           App.ByCategory
           {| App.place := taipei; App.category := lit "sushi";
              App.price := lit "$"; App.distance := lit "1km" |}).
  vm_compute. tauto.
Defined.

(** X17.  As long as fetches do not overlap, the component never holds an
    error message and a list of results together: a fetch that starts clears
    both, and its promise sets one or the other. *)
Theorem error_excludes_list {PriceLevel DistanceRange : Type}
    (MODERATE : PriceLevel) (WALKABLE : DistanceRange)
    (events : list (@App.Event PriceLevel DistanceRange)) :
  App.oneAtATime 0 (App.initialState MODERATE WALKABLE) events = true ->
  let s := fst (App.run (App.initialState MODERATE WALKABLE) events) in
  App.error s = None \/ App.recommendations s = [].
Proof.
  intros Hone s.
  destruct (App.error s) as [message|] eqn:E; [right|now left].
  apply (run_oneAtATime events 0 (App.initialState MODERATE WALKABLE));
    trivial.
  - simpl. reflexivity.
  - fold s. rewrite E. discriminate.
Qed.

Lemma error_excludes_list_witness :
  let s := fst (App.run App.sampleStart App.quietRun) in
  App.error s = None \/ App.recommendations s = [].
Proof.
  apply (error_excludes_list (lit "$$") (lit "1km") App.quietRun).
  vm_compute. reflexivity.
Defined.

(** With two fetches under way the first can resolve after the second was
    started and the second then fail: the state then holds the message and
    the list of the first. *)
Example overlap_keeps_both :
  let s := fst (App.run App.sampleStart App.overlappingRun) in
  App.error s = Some App.categoryMessage /\
  App.recommendations s = App.sampleRestaurants /\
  App.sampleRestaurants <> [].
Proof. vm_compute. repeat split. discriminate. Qed.

(** X18.  A position once found is kept: after any sequence of events the
    location of the state is the one the last success callback of
    [getCurrentPosition] delivered, whatever attempts failed after it, and
    there is none only when there was no such callback. *)
Theorem position_is_kept {PriceLevel DistanceRange : Type}
    (MODERATE : PriceLevel) (WALKABLE : DistanceRange)
    (events : list (@App.Event PriceLevel DistanceRange)) :
  App.location (fst (App.run (App.initialState MODERATE WALKABLE) events))
  = App.lastPosition events.
Proof.
  rewrite run_location. now destruct (App.lastPosition events).
Qed.

(** X19.  Once the response has arrived there is one way for the call to
    fail: it fails, with URIError logged once and rethrown, exactly when one
    of the first five qualifying lines has a name that holds an unpaired
    surrogate and gets no usable URI from the grounding chunks; it fails in
    no other way, and when there is no such line it returns a list, having
    logged nothing. *)
Theorem failure_is_an_unpaired_surrogate
    (toLowerCase : jsstring -> jsstring) (now : nat -> Z)
    (location : GeoLocation) (response : GenerateContentResponse) :
  (fetchRecommendations toLowerCase now location (Resolves response)
  = ([ConsoleError (lit "Error fetching recommendations:") URIError],
     Throw URIError)
  <->
  exists line,
    In line (firstn 5 (linesOf (textOf response))) /\
    ungrounded (matchedChunk toLowerCase (chunksOf response)
                  (nameOf (partsOf line))) /\
    wellFormed (nameOf (partsOf line)) = false) /\
  (forall log e,
     fetchRecommendations toLowerCase now location (Resolves response)
     = (log, Throw e) ->
     e = URIError /\
     log = [ConsoleError (lit "Error fetching recommendations:") URIError]) /\
  ((exists restaurants,
      fetchRecommendations toLowerCase now location (Resolves response)
      = ([], Ok restaurants))
   <->
   ~ exists line,
       In line (firstn 5 (linesOf (textOf response))) /\
       ungrounded (matchedChunk toLowerCase (chunksOf response)
                     (nameOf (partsOf line))) /\
       wellFormed (nameOf (partsOf line)) = false).
Proof.
  assert (fetchRecommendations toLowerCase now location (Resolves response)
  = ([ConsoleError (lit "Error fetching recommendations:") URIError],
     Throw URIError)
  <->
  exists line,
    In line (firstn 5 (linesOf (textOf response))) /\
    ungrounded (matchedChunk toLowerCase (chunksOf response)
                  (nameOf (partsOf line))) /\
    wellFormed (nameOf (partsOf line)) = false) as exactly.
  {
  assert (forall line k e,
    restaurantOf toLowerCase now location (chunksOf response) line k
      = Throw e ->
    e = URIError /\
    ungrounded (matchedChunk toLowerCase (chunksOf response)
                  (nameOf (partsOf line))) /\
    wellFormed (nameOf (partsOf line)) = false) as fails.
  { intros line k e H. unfold restaurantOf, mapUriOf in H.
    destruct (groundedUri _) as [|x g] eqn:G; [|discriminate].
    simpl in H. apply groundedUri_ungrounded in G.
    destruct (encodeURIComponent (searchQuery _ _)) as [|e'] eqn:E;
      [discriminate|].
    injection H as ->.
    destruct (encodeURIComponent_Throw _ _ E) as [-> _].
    repeat split; [assumption|].
    destruct (encodeURIComponent (nameOf (partsOf line))) as [en|e'] eqn:En.
    - unfold searchQuery in E.
      rewrite (encodeURIComponent_app _ _ en En) in E.
      destruct (encodeURIComponent_WellFormed
                  (lit " " ++ lit (lat location) ++ lit ","
                     ++ lit (lng location))) as [out Hout].
      { repeat apply WellFormed_app; apply WellFormed_lit. }
      rewrite Hout in E. discriminate.
    - now apply encodeURIComponent_Throw in En. }
  split.
  - intros H. unfold fetchRecommendations in H.
    destruct (restaurantsOf toLowerCase now location response) as [rs|e]
      eqn:R; [discriminate|].
    unfold restaurantsOf in R.
    apply mapIndexed_Throw in R as (line & k & Hin & R).
    exists line. split; [assumption|]. now apply fails in R.
  - intros (line & Hin & Hun & Hw).
    unfold fetchRecommendations, restaurantsOf.
    rewrite (mapIndexed_fails _ _ URIError line); trivial.
    + intros x k e' H. now apply fails in H.
    + intros k. unfold restaurantOf, mapUriOf.
      apply groundedUri_ungrounded in Hun. rewrite Hun. simpl.
      destruct (encodeURIComponent (nameOf (partsOf line))) as [en|e] eqn:En.
      * apply encodeURIComponent_Ok in En. congruence.
      * destruct (encodeURIComponent_Throw _ _ En) as [-> _].
        unfold searchQuery.
        now rewrite (encodeURIComponent_app_Throw _ _ URIError En). }
  assert (forall log e,
     fetchRecommendations toLowerCase now location (Resolves response)
     = (log, Throw e) ->
     e = URIError /\
     log = [ConsoleError (lit "Error fetching recommendations:") URIError])
    as one_way.
  { intros log e H.
    destruct (fetchRecommendations_Throw _ _ _ _ _ _ H) as [-> _].
    split; [reflexivity|]. unfold fetchRecommendations in H.
    destruct (restaurantsOf toLowerCase now location response);
      [discriminate|].
    now injection H as <- <-. }
  split; [exact exactly|]. split; [exact one_way|]. split.
  - intros (rs & H) Hline. apply exactly in Hline. congruence.
  - intros Hno.
    destruct (fetchRecommendations toLowerCase now location
                (Resolves response)) as [log [rs|e]] eqn:E.
    + apply fetchRecommendations_Ok in E as H. destruct H as [-> _].
      now exists rs.
    + destruct (one_way log e eq_refl) as [-> ->].
      elim Hno. now apply exactly.
Qed.

Lemma failure_is_an_unpaired_surrogate_witness :
  fetchRecommendations lowerBasicLatin midnight taipei
    (Resolves (respond (sampleLine ++ newline :: unpairedLine)
                 [taipeiBranch]))
  = ([ConsoleError (lit "Error fetching recommendations:") URIError],
     Throw URIError).
Proof.
  apply (proj1 (failure_is_an_unpaired_surrogate lowerBasicLatin midnight
                  taipei
                  (respond (sampleLine ++ newline :: unpairedLine)
                     [taipeiBranch]))).
  exists unpairedLine. split; [|split].
  - vm_compute. tauto.
  - vm_compute. exact I.
  - reflexivity.
Defined.

